(** * go-corelibs/diff: the Diff engine and the unified-diff renderer

    A shallow embedding of [diff.go] and [render.go].  Go [int] values are
    modelled as [Z], Go strings as [string] (sequences of bytes), slices as
    lists, the [keep] map (a [map[int]struct{}]) as a [gset Z].  A run-time
    panic (slice index out of range) is an explicit outcome of the [go]
    monad below.  The collaborators that live in other modules
    ([myers.ComputeEdits], [gotextdiff.ToUnified], [diffmatchpatch.DiffMain],
    [html.EscapeString]) are Section variables. *)

From Stdlib Require Import ZArith String Ascii List Lia Bool ZifyBool.
From stdpp Require Import base tactics option list strings gmap sets sorting.

Local Open Scope Z_scope.

(** ** Outcomes of Go code that may panic *)

Inductive go (A : Type) : Type :=
| Ret (a : A)
| Panic.
Arguments Ret {A} a.
Arguments Panic {A}.

#[global] Instance go_ret : MRet go := fun A a => Ret a.

#[global] Instance go_bind : MBind go := fun A B k m =>
  match m with
  | Ret a => k a
  | Panic => Panic
  end.

Definition returns {A : Type} (m : go A) : Prop := exists a, m = Ret a.

(** [s[i]] on a slice: panics unless [0 <= i < len(s)]. *)
Definition slice_get {A : Type} (s : list A) (i : Z) : go A :=
  if bool_decide (0 <= i < Z.of_nat (length s)) then
    match s !! Z.to_nat i with
    | Some x => Ret x
    | None => Panic
    end
  else Panic.

(** [s[i] = x] on a slice: panics unless [0 <= i < len(s)]. *)
Definition slice_set {A : Type} (s : list A) (i : Z) (x : A) : go (list A) :=
  if bool_decide (0 <= i < Z.of_nat (length s)) then Ret (<[Z.to_nat i := x]> s)
  else Panic.

(** [len(s)] as a Go [int]. *)
Definition len {A : Type} (s : list A) : Z := Z.of_nat (length s).

(** ** gotextdiff's edit spans *)

Module span.
Record Point : Type := NewPoint { Line : Z; Column : Z; Offset : Z }.
Record Span : Type := New { URI : string; Start : Point; End : Point }.
End span.

Record TextEdit : Type := mkTextEdit { Span : span.Span; NewText : string }.

(** ** diff.go *)

Record Diff : Type := mkDiff {
  path : string;
  source : string;
  changed : string;
  edits : list TextEdit;
  keep : gset Z;
  groups : list (list Z)
}.

(** The state of the loop of [init]: the groups closed so far, the end
    line of the previous edit ([-1] before the first one) and the group
    being accumulated. *)
Record initState : Type := mkInit {
  st_groups : list (list Z);
  st_previousLine : Z;
  st_group : list Z
}.

(** One iteration of [for idx, edit := range d.edits]. *)
Definition init_step (st : initState) (idx : Z) (edit : TextEdit) : initState :=
  let thisLine := span.Line (span.End (Span edit)) in
  if st_previousLine st =? -1 then
    mkInit (st_groups st) thisLine (st_group st ++ [idx])
  else if (thisLine =? st_previousLine st) || (thisLine =? st_previousLine st + 1) then
    mkInit (st_groups st) thisLine (st_group st ++ [idx])
  else
    mkInit (st_groups st ++ [st_group st]) thisLine [idx].

Fixpoint init_loop (st : initState) (idx : Z) (es : list TextEdit) : initState :=
  match es with
  | [] => st
  | edit :: es' => init_loop (init_step st idx edit) (idx + 1) es'
  end.

(** The grouping part of [init], after the edits were computed. *)
Definition init_groups (es : list TextEdit) : list (list Z) :=
  let st := init_loop (mkInit [] (-1) []) 0 es in
  if 0 <? len (st_group st) then st_groups st ++ [st_group st] else st_groups st.

(** While no group was started the sentinel is still in place and nothing
    was closed; closed groups are never empty. *)
Definition init_inv (st : initState) : Prop :=
  Forall (fun g => g <> []) (st_groups st)
  /\ (st_group st = [] -> st_previousLine st = -1 /\ st_groups st = []).

(** [abPaths] on the path alone. *)
Definition abPaths_of (p : string) : string * string :=
  let '(a, b) := ("a"%string, "b"%string) in
  let '(a, b) :=
    match p with
    | String c _ => if Ascii.eqb c "/"%char then (a, b) else (a +:+ "/", b +:+ "/")
    | EmptyString => (a, b)
    end in
  (a +:+ p, b +:+ p).

Definition abPaths (d : Diff) : string * string := abPaths_of (path d).

Definition Len (d : Diff) : Z := len (edits d).

Definition KeepLen (d : Diff) : Z := Z.of_nat (size (keep d)).

Definition EditGroupsLen (d : Diff) : Z := len (groups d).

(** Every index held by a group is the index of an edit. *)
Definition groups_valid (d : Diff) : Prop :=
  Forall (Forall (fun gid => 0 <= gid < Len d)) (groups d).

Definition set_keep (d : Diff) (k : gset Z) : Diff :=
  mkDiff (path d) (source d) (changed d) (edits d) k (groups d).

Definition set_edits (d : Diff) (es : list TextEdit) : Diff :=
  mkDiff (path d) (source d) (changed d) es (keep d) (groups d).

(** [for idx := range d.edits { d.keep[idx] = struct{}{} }] *)
Definition KeepAll (d : Diff) : Diff :=
  set_keep d (list_to_set (Z.of_nat <$> seq 0 (length (edits d)))).

Definition SkipAll (d : Diff) : Diff := set_keep d ∅.

Definition KeepEdit (d : Diff) (index : Z) : Diff * bool :=
  let count := len (edits d) in
  if (0 <? count) && (0 <=? index) && (index <? count) then
    (if bool_decide (index ∈ keep d) then d else set_keep d ({[index]} ∪ keep d), true)
  else (d, false).

Definition SkipEdit (d : Diff) (index : Z) : Diff * bool :=
  let count := len (edits d) in
  if (0 <? count) && (0 <=? index) && (index <? count) then
    if bool_decide (index ∈ keep d) then (set_keep d (keep d ∖ {[index]}), true)
    else (d, false)
  else (d, false).

(** [for _, gid := range group { d.KeepEdit(gid) }] *)
Fixpoint KeepEdits (d : Diff) (gids : list Z) : Diff :=
  match gids with
  | [] => d
  | gid :: rest => KeepEdits (fst (KeepEdit d gid)) rest
  end.

Fixpoint SkipEdits (d : Diff) (gids : list Z) : Diff :=
  match gids with
  | [] => d
  | gid :: rest => SkipEdits (fst (SkipEdit d gid)) rest
  end.

Definition KeepGroup (d : Diff) (index : Z) : go Diff :=
  if (0 <=? index) && (index <? len (groups d)) then
    g ← slice_get (groups d) index; Ret (KeepEdits d g)
  else Ret d.

Definition SkipGroup (d : Diff) (index : Z) : go Diff :=
  if (0 <=? index) && (index <? len (groups d)) then
    g ← slice_get (groups d) index; Ret (SkipEdits d g)
  else Ret d.

Definition GetEdit (d : Diff) (index : Z) : go (string * bool) :=
  if (0 <=? index) && (index <? Len d) then
    e ← slice_get (edits d) index; Ret (NewText e, true)
  else Ret (""%string, false).

Definition SetEdit (d : Diff) (index : Z) (text : string) : go (Diff * bool) :=
  if (0 <=? index) && (index <? Len d) then
    e ← slice_get (edits d) index;
    es ← slice_set (edits d) index (mkTextEdit (Span e) text);
    Ret (set_edits d es, true)
  else Ret (d, false).

(** [for _, gid := range gids { edits = append(edits, d.edits[gid]) }] *)
Fixpoint collect (es : list TextEdit) (gids : list Z) : go (list TextEdit) :=
  match gids with
  | [] => Ret []
  | gid :: rest =>
      e ← slice_get es gid;
      r ← collect es rest;
      Ret (e :: r)
  end.

Section Collaborators.

(** [myers.ComputeEdits(span.URIFromPath(path), source, changed)] *)
Variable ComputeEdits : string -> string -> string -> list TextEdit.

(** [fmt.Sprint(gotextdiff.ToUnified(from, to, content, edits))] *)
Variable ToUnified : string -> string -> string -> list TextEdit -> string.

Definition New (p src chg : string) : Diff :=
  let es := ComputeEdits p src chg in
  mkDiff p src chg es ∅ (init_groups es).

(** The error result is the named result [err], never assigned. *)
Definition Unified (d : Diff) : string * option string :=
  let '(ap, bp) := abPaths d in
  (ToUnified ap bp (source d) (edits d), None).

(** [d.edits[index]] is not guarded. *)
Definition UnifiedEdit (d : Diff) (index : Z) : go string :=
  let '(ap, bp) := abPaths d in
  e ← slice_get (edits d) index;
  Ret (ToUnified ap bp (source d) [e]).

Definition EditGroup (d : Diff) (index : Z) : go string :=
  let '(ap, bp) := abPaths d in
  if (0 <=? index) && (index <? len (groups d)) then
    g ← slice_get (groups d) index;
    es ← collect (edits d) g;
    Ret (ToUnified ap bp (source d) es)
  else Ret ""%string.

End Collaborators.

(** ** render.go *)

Module diffmatchpatch.
Inductive Operation : Type := DiffDelete | DiffInsert | DiffEqual.
Record Diff : Type := mkDiff { Type_ : Operation; Text : string }.
End diffmatchpatch.

(** Modelled from the spec: the declarations of [MarkupTag] and
    [AddRemTags] are not among the sources; the spec gives them as an
    open/close pair of strings and an add/rem pair of tags, and render.go
    uses the fields [Open], [Close], [Add] and [Rem]. *)
Record MarkupTag : Type := mkMarkupTag { Open : string; Close : string }.

Record AddRemTags : Type := mkAddRemTags { Add : MarkupTag; Rem : MarkupTag }.

Record CRender : Type := mkCRender {
  File : MarkupTag;
  Normal : MarkupTag;
  Comment : MarkupTag;
  Line : AddRemTags;
  Text : AddRemTags
}.

(** [NewRenderer]: every tag is the empty string. *)
Definition NewRenderer : CRender :=
  let e := mkMarkupTag "" "" in
  mkCRender e e e (mkAddRemTags e e) (mkAddRemTags e e).

Record renderBatch : Type := mkBatch { d : list string; a : list string }.

Definition add (b : renderBatch) (line : string) : renderBatch :=
  mkBatch (d b) (a b ++ [line]).

Definition rem (b : renderBatch) (line : string) : renderBatch :=
  mkBatch (d b ++ [line]) (a b).

(** [string(line[0])]: the conversion of a byte to a string gives the
    UTF-8 encoding of the code point of that value, two bytes from 128 on. *)
Definition string_of_byte (c : ascii) : string :=
  let n := Z.of_N (N_of_ascii c) in
  if n <? 128 then String c EmptyString
  else
    String (ascii_of_N (Z.to_N (Z.lor 192 (Z.shiftr n 6))))
      (String (ascii_of_N (Z.to_N (Z.lor 128 (Z.land n 63)))) EmptyString).

Definition newline : ascii := ascii_of_nat 10.

Definition nl : string := String newline EmptyString.

(** [strings.Split(s, "\n")]: one more piece than there are newlines. *)
Fixpoint Split (s : string) : list string :=
  match s with
  | EmptyString => [EmptyString]
  | String c s' =>
      if Ascii.eqb c newline then EmptyString :: Split s'
      else
        match Split s' with
        | piece :: pieces => String c piece :: pieces
        | [] => [String c EmptyString]
        end
  end.

(** The slot of the [k]-th removal and of the [k]-th addition of a batch
    flushed at [lastIdx]. *)
Definition rem_slot (lastIdx : Z) (b : renderBatch) (k : Z) : nat :=
  Z.to_nat (lastIdx - len (d b) - len (a b) + k).

Definition add_slot (lastIdx : Z) (b : renderBatch) (k : Z) : nat :=
  Z.to_nat (lastIdx - len (a b) + k).

Module Render.
Section WithCollaborators.

(** [diffmatchpatch.New().DiffMain(a, b, checklines)] *)
Variable DiffMain : string -> string -> bool -> list diffmatchpatch.Diff.

(** [html.EscapeString] *)
Variable EscapeString : string -> string.

Variable r : CRender.

(** The body of the loop of [RenderLine]; [DiffEqual] is also the
    [default] case. *)
Definition RenderLine_step (acc : string * string) (diff : diffmatchpatch.Diff)
  : string * string :=
  let '(ma, mb) := acc in
  let text := EscapeString (diffmatchpatch.Text diff) in
  match diffmatchpatch.Type_ diff with
  | diffmatchpatch.DiffDelete =>
      (ma +:+ ((Open (Rem (Text r)) +:+ text) +:+ Close (Rem (Text r))), mb)
  | diffmatchpatch.DiffInsert =>
      (ma, mb +:+ ((Open (Add (Text r)) +:+ text) +:+ Close (Add (Text r))))
  | diffmatchpatch.DiffEqual => (ma +:+ text, mb +:+ text)
  end.

Definition RenderLine (a b : string) : string * string :=
  fold_left RenderLine_step (DiffMain a b false) (""%string, ""%string).

(** [for idx := range batch.d], from [idx] on; [ds] is what is left of
    the range. *)
Fixpoint pair_loop (lastIdx numDel numAdd : Z) (b : renderBatch) (idx : Z)
    (ds : list string) (lines : list string) : go (list string) :=
  match ds with
  | [] => Ret lines
  | _ :: ds' =>
      lines' ←
        (if idx <? numAdd then
           x ← slice_get (d b) idx;
           y ← slice_get (a b) idx;
           let '(ma, mb) := RenderLine x y in
           l1 ← slice_set lines (lastIdx - numDel - numAdd + idx) ("-" +:+ ma);
           slice_set l1 (lastIdx - numAdd + idx) ("+" +:+ mb)
         else Ret lines);
      pair_loop lastIdx numDel numAdd b (idx + 1) ds' lines'
  end.

(** [lines] and [batch] are passed by pointer: the new values of both
    are returned. *)
Definition processRenderDiffBatch (lastIdx : Z) (lines : list string)
    (batch : option renderBatch) : go (list string * option renderBatch) :=
  match batch with
  | None => Ret (lines, None)
  | Some b =>
      let numDel := len (d b) in
      lines' ←
        (if 0 <? numDel then
           let numAdd := len (a b) in
           if 0 <? numAdd then pair_loop lastIdx numDel numAdd b 0 (d b) lines
           else Ret lines
         else Ret lines);
      Ret (lines', None)
  end.

(** One iteration of [for idx, line := range original]. *)
Definition prepare_step (st : list string * option renderBatch) (idx : Z)
    (line : string) : go (list string * option renderBatch) :=
  let '(lines, batch) := st in
  if idx <? 2 then Ret (lines ++ [line], batch)
  else
    match line with
    | EmptyString => processRenderDiffBatch idx (lines ++ [""%string]) batch
    | String c rest =>
        let lines := lines ++ [string_of_byte c +:+ EscapeString rest] in
        match batch with
        | None =>
            if Ascii.eqb c "-"%char then Ret (lines, Some (rem (mkBatch [] []) rest))
            else Ret (lines, None)
        | Some b =>
            if Ascii.eqb c "-"%char then
              if 0 <? len (a b) then
                st' ← processRenderDiffBatch idx lines batch;
                Ret (fst st', Some (rem (mkBatch [] []) rest))
              else Ret (lines, Some (rem b rest))
            else if Ascii.eqb c "+"%char then Ret (lines, Some (add b rest))
            else processRenderDiffBatch idx lines batch
        end
    end.

Fixpoint prepare_loop (st : list string * option renderBatch) (idx : Z)
    (original : list string) : go (list string * option renderBatch) :=
  match original with
  | [] => Ret st
  | line :: rest =>
      st' ← prepare_step st idx line;
      prepare_loop st' (idx + 1) rest
  end.

Definition prepareRenderDiff (original : list string) : go (list string) :=
  st ← prepare_loop ([], None) 0 original;
  st' ← processRenderDiffBatch (len original) (fst st) (snd st);
  Ret (fst st').

(** The tag pair chosen by [switch line[0]]. *)
Definition line_tag (c : ascii) : MarkupTag :=
  if Ascii.eqb c "+"%char then Add (Line r)
  else if Ascii.eqb c "-"%char then Rem (Line r)
  else if Ascii.eqb c "@"%char || Ascii.eqb c "\"%char || Ascii.eqb c "#"%char
  then Comment r
  else Normal r.

(** The body of [for _, line := range lines]: nothing is done for a
    line of size 0. *)
Definition RenderDiff_step (markup : string) (line : string) : string :=
  match line with
  | String c _ =>
      let markup := markup +:+ ((Open (line_tag c) +:+ line) +:+ Close (line_tag c)) in
      markup +:+ String newline EmptyString
  | EmptyString => markup
  end.

Definition RenderDiff_loop (lines : list string) : string :=
  fold_left RenderDiff_step lines ""%string.

Definition RenderDiff (unified : string) : go string :=
  let original := Split unified in
  lines ← prepareRenderDiff original;
  let markup := RenderDiff_loop lines in
  Ret ((Open (File r) +:+ markup) +:+ Close (File r)).

(** *** Stating what the scan and the loop do *)

(** What the loop appends to [markup] for one line. *)
Definition tagged_line (line : string) : string :=
  match line with
  | String c _ =>
      ((Open (line_tag c) +:+ line) +:+ Close (line_tag c)) +:+ nl
  | EmptyString => EmptyString
  end.

(** How the line at index [i] of the result relates to the line [o] of
    the input: a header line is kept; an empty line stays empty; another
    line is [string(line[0])] followed by the escaped rest, unless it is
    a paired removal or addition and carries the markup of [RenderLine]. *)
Definition prepared_from (i : nat) (o l : string) : Prop :=
  if (i <? 2)%nat then l = o
  else
    match o with
    | EmptyString => l = EmptyString
    | String c rest =>
        l = string_of_byte c +:+ EscapeString rest
        \/ (c = "-"%char /\ exists y, l = "-" +:+ fst (RenderLine rest y))
        \/ (c = "+"%char /\ exists x, l = "+" +:+ snd (RenderLine x rest))
    end.

Definition lines_ok (pre lines : list string) : Prop :=
  length lines = length pre
  /\ forall i o, pre !! i = Some o ->
       exists l, lines !! i = Some l /\ prepared_from i o l.

(** An open batch holds the raw text of the removals and additions that
    end just before [lastIdx], after the two header lines; their slots
    hold the plain escaped lines. *)
Definition batch_at (pre lines : list string) (lastIdx : Z)
    (batch : option renderBatch) : Prop :=
  match batch with
  | None => True
  | Some b =>
      0 < len (d b)
      /\ 2 + len (d b) + len (a b) <= lastIdx
      /\ (forall (k : nat) x, d b !! k = Some x ->
            pre !! rem_slot lastIdx b (Z.of_nat k) = Some (String "-" x)
            /\ lines !! rem_slot lastIdx b (Z.of_nat k)
               = Some (String "-" (EscapeString x)))
      /\ (forall (k : nat) y, a b !! k = Some y ->
            pre !! add_slot lastIdx b (Z.of_nat k) = Some (String "+" y)
            /\ lines !! add_slot lastIdx b (Z.of_nat k)
               = Some (String "+" (EscapeString y)))
  end.

Definition prepare_inv (pre : list string)
    (st : list string * option renderBatch) : Prop :=
  lines_ok pre (fst st) /\ batch_at pre (fst st) (len (fst st)) (snd st).

End WithCollaborators.
End Render.
Import Render.

(** ** Instances of the collaborators, for the examples *)

(** Go's [html.EscapeString]: the five characters [&], ['], [<], [>] and
    the double quote are replaced by entities. *)
Definition escape_byte (c : ascii) : string :=
  if Ascii.eqb c "&"%char then "&amp;"
  else if Ascii.eqb c "'"%char then "&#39;"
  else if Ascii.eqb c "<"%char then "&lt;"
  else if Ascii.eqb c ">"%char then "&gt;"
  else if Ascii.eqb c (ascii_of_nat 34) then "&#34;"
  else String c EmptyString.

Fixpoint html_EscapeString (s : string) : string :=
  match s with
  | EmptyString => EmptyString
  | String c s' => escape_byte c +:+ html_EscapeString s'
  end.

(** A stand-in for [DiffMain]: the common prefix and the common suffix are
    equal segments, what is between them is deleted and inserted. *)
Fixpoint common_prefix (x y : string) : string * (string * string) :=
  match x, y with
  | String c x', String c' y' =>
      if Ascii.eqb c c' then
        let '(p, rest) := common_prefix x' y' in (String c p, rest)
      else (EmptyString, (x, y))
  | _, _ => (EmptyString, (x, y))
  end.

Definition rev_string (s : string) : string :=
  string_of_list_ascii (rev (list_ascii_of_string s)).

Definition segment (op : diffmatchpatch.Operation) (t : string)
  : list diffmatchpatch.Diff :=
  match t with
  | EmptyString => []
  | _ => [diffmatchpatch.mkDiff op t]
  end.

Definition affix_DiffMain (x y : string) (checklines : bool)
  : list diffmatchpatch.Diff :=
  let '(p, (x1, y1)) := common_prefix x y in
  let '(s, (x2, y2)) := common_prefix (rev_string x1) (rev_string y1) in
  segment diffmatchpatch.DiffEqual p
  ++ segment diffmatchpatch.DiffDelete (rev_string x2)
  ++ segment diffmatchpatch.DiffInsert (rev_string y2)
  ++ segment diffmatchpatch.DiffEqual (rev_string s).

(** A renderer with visible tags. *)
Definition html_tags : CRender :=
  mkCRender (mkMarkupTag "<f>" "</f>") (mkMarkupTag "<n>" "</n>")
    (mkMarkupTag "<c>" "</c>")
    (mkAddRemTags (mkMarkupTag "<la>" "</la>") (mkMarkupTag "<lr>" "</lr>"))
    (mkAddRemTags (mkMarkupTag "<ta>" "</ta>") (mkMarkupTag "<tr>" "</tr>")).


Definition edit_at (line : Z) (text : string) : TextEdit :=
  mkTextEdit (span.New "file:///f" (span.NewPoint line 1 0) (span.NewPoint line 1 0)) text.

(** Edits ending on lines 5, 6 and 8. *)
Definition three_edits (p src chg : string) : list TextEdit :=
  [edit_at 5 "x"; edit_at 6 "y"; edit_at 8 "z"].

Definition no_edits (p src chg : string) : list TextEdit := [].

Definition const_unified (from to content : string) (es : list TextEdit) : string :=
  ("--- " +:+ from) +:+ nl +:+ ("+++ " +:+ to) +:+ nl.

(** Three edits, none kept; the same with edit 0 kept; a Diff of a rooted
    path. *)
Definition fresh_diff : Diff := New three_edits "f" "s" "c".

Definition kept_diff : Diff := fst (KeepEdit fresh_diff 0).

Definition rooted_diff : Diff := New no_edits "/x" "s" "s".

(** The two header lines alone, and a whole unified diff of one hunk. *)
Definition header_only : string := "--- a/f" +:+ nl +:+ "+++ b/f".

Definition one_hunk : string :=
  "--- a/f" +:+ nl +:+ "+++ b/f" +:+ nl +:+ "@@ -1,1 +1,1 @@" +:+ nl
  +:+ "-hello" +:+ nl +:+ "+hullo" +:+ nl.

(** Two removals and three additions, already appended in escaped form,
    and the context line at index 8 that ends the run. *)
Definition run_lines : list string :=
  ["--- a/f"; "+++ b/f"; "@@ -1,2 +1,3 @@"; "-a&lt;b"; "-x"; "+a&lt;c"; "+y"; "+z";
   " ctx"]%string.

(** The same lines as they are in the input. *)
Definition run_raw : list string :=
  ["--- a/f"; "+++ b/f"; "@@ -1,2 +1,3 @@"; "-a<b"; "-x"; "+a<c"; "+y"; "+z";
   " ctx"]%string.

Definition run_batch : renderBatch :=
  mkBatch ["a<b"; "x"]%string ["a<c"; "y"; "z"]%string.

(** The header and one line that begins with the bytes C3 A9, the UTF-8
    encoding of one character. *)
Definition accented_raw : list string :=
  ["--- a/f"; "+++ b/f";
   String (ascii_of_nat 195) (String (ascii_of_nat 169) "t<")]%string.

(** ** The rest of diff.go: the outputs from the kept edits *)

(** Every kept index is the index of an edit. *)
Definition keep_valid (d : Diff) : Prop :=
  forall i, i ∈ keep d -> 0 <= i < Len d.

(** The line [init] reads off an edit: [edit.Span.End().Line()]. *)
Definition end_line (e : TextEdit) : Z := span.Line (span.End (Span e)).

(** The test of [init] that keeps an edit in the group of the one before. *)
Definition adjacent_lines (previousLine thisLine : Z) : Prop :=
  thisLine = previousLine \/ thisLine = previousLine + 1.

Definition same_group (gs : list (list Z)) (i j : Z) : Prop :=
  exists g, g ∈ gs /\ i ∈ g /\ j ∈ g.

(** What the loop of [init] keeps after the edits [pre]: the groups so
    far hold the indices below [len pre]; the previous line is that of the
    last edit, whose index is in the open group; and two edits next to each
    other share a group exactly when their end lines are adjacent. *)
Definition init_run_inv (pre : list TextEdit) (st : initState) : Prop :=
  concat (st_groups st) ++ st_group st = seqZ 0 (len pre)
  /\ match last pre with
     | None => st = mkInit [] (-1) []
     | Some e => st_previousLine st = end_line e /\ (len pre - 1) ∈ st_group st
     end
  /\ forall (i : nat) e e',
       pre !! i = Some e -> pre !! S i = Some e' ->
       same_group (st_groups st ++ [st_group st]) (Z.of_nat i) (Z.of_nat (S i))
       <-> adjacent_lines (end_line e) (end_line e').

(** [maps.SortedNumbers(d.keep)], of go-corelibs/maps: the keys of the map
    in ascending order. *)
Definition SortedNumbers (k : gset Z) : list Z := merge_sort Z.le (elements k).

(** [fmt.Errorf("gotextdiff error: %v", r)]; the recovered value [r] is not
    kept in the model. *)
Inductive error : Type := gotextdiff_error.

Section Outputs.

Variable ToUnified : string -> string -> string -> list TextEdit -> string.

(** [gotextdiff.ApplyEdits(content, edits)], which may panic. *)
Variable ApplyEdits : string -> list TextEdit -> go string.

Definition UnifiedEdits (d : Diff) : go string :=
  let '(ap, bp) := abPaths d in
  es ← collect (edits d) (SortedNumbers (keep d));
  Ret (ToUnified ap bp (source d) es).

(** The deferred [recover] turns a panic of the body into the error
    result; [modified] is then still the empty string it started as. *)
Definition ModifiedEdits (d : Diff) : string * option error :=
  match (es ← collect (edits d) (SortedNumbers (keep d));
         ApplyEdits (source d) es) with
  | Ret modified => (modified, None)
  | Panic => (EmptyString, Some gotextdiff_error)
  end.

End Outputs.

(** ** The rest of render.go: the builder

    [NewRenderer], the setters, [Make] and [Clone] hand out pointers to one
    [CRender]; the heap maps a pointer to the value it points to, and a
    method called through a pointer that is not in the heap panics. *)

Definition with_File (open close : string) (r : CRender) : CRender :=
  mkCRender (mkMarkupTag open close) (Normal r) (Comment r) (Line r) (Text r).

Definition with_Normal (open close : string) (r : CRender) : CRender :=
  mkCRender (File r) (mkMarkupTag open close) (Comment r) (Line r) (Text r).

Definition with_Comment (open close : string) (r : CRender) : CRender :=
  mkCRender (File r) (Normal r) (mkMarkupTag open close) (Line r) (Text r).

Definition with_LineAdded (open close : string) (r : CRender) : CRender :=
  mkCRender (File r) (Normal r) (Comment r)
    (mkAddRemTags (mkMarkupTag open close) (Rem (Line r))) (Text r).

Definition with_TextAdded (open close : string) (r : CRender) : CRender :=
  mkCRender (File r) (Normal r) (Comment r) (Line r)
    (mkAddRemTags (mkMarkupTag open close) (Rem (Text r))).

Definition with_LineRemoved (open close : string) (r : CRender) : CRender :=
  mkCRender (File r) (Normal r) (Comment r)
    (mkAddRemTags (Add (Line r)) (mkMarkupTag open close)) (Text r).

Definition with_TextRemoved (open close : string) (r : CRender) : CRender :=
  mkCRender (File r) (Normal r) (Comment r) (Line r)
    (mkAddRemTags (Add (Text r)) (mkMarkupTag open close)).

(** A method that writes through the receiver [r] and returns it. *)
Definition through (h : gmap nat CRender) (r : nat) (f : CRender -> CRender)
  : go (gmap nat CRender * nat) :=
  match h !! r with
  | Some cfg => Ret (<[r := f cfg]> h, r)
  | None => Panic
  end.

Definition NewRendererIn (h : gmap nat CRender) : gmap nat CRender * nat :=
  let tb := fresh (dom h) in (<[tb := NewRenderer]> h, tb).

Definition SetFile (h : gmap nat CRender) (r : nat) (open close : string) :=
  through h r (with_File open close).

Definition SetNormal (h : gmap nat CRender) (r : nat) (open close : string) :=
  through h r (with_Normal open close).

Definition SetComment (h : gmap nat CRender) (r : nat) (open close : string) :=
  through h r (with_Comment open close).

Definition SetLineAdded (h : gmap nat CRender) (r : nat) (open close : string) :=
  through h r (with_LineAdded open close).

Definition SetTextAdded (h : gmap nat CRender) (r : nat) (open close : string) :=
  through h r (with_TextAdded open close).

Definition SetLineRemoved (h : gmap nat CRender) (r : nat) (open close : string) :=
  through h r (with_LineRemoved open close).

Definition SetTextRemoved (h : gmap nat CRender) (r : nat) (open close : string) :=
  through h r (with_TextRemoved open close).

(** [Make] returns the receiver itself. *)
Definition Make (h : gmap nat CRender) (r : nat) : nat := r.

(** [clone := *r; return &clone] *)
Definition Clone (h : gmap nat CRender) (r : nat) : go (gmap nat CRender * nat) :=
  match h !! r with
  | Some cfg => let clone := fresh (dom h) in Ret (<[clone := cfg]> h, clone)
  | None => Panic
  end.

(** [RenderDiff] called through a pointer. *)
Definition RenderDiffAt (DiffMain : string -> string -> bool -> list diffmatchpatch.Diff)
    (EscapeString : string -> string) (h : gmap nat CRender) (r : nat)
    (unified : string) : go string :=
  match h !! r with
  | Some cfg => RenderDiff DiffMain EscapeString cfg unified
  | None => Panic
  end.

(** ** Stating what the renderer does to lines it does not pair *)

(** [string(line[0]) + html.EscapeString(line[1:])], and the empty line. *)
Definition escaped_line (EscapeString : string -> string) (o : string) : string :=
  match o with
  | EmptyString => EmptyString
  | String c rest => string_of_byte c +:+ EscapeString rest
  end.

(** The header lines as they are, every other line escaped. *)
Definition plain_lines (EscapeString : string -> string) (original : list string)
  : list string :=
  imap (fun i o => if (i <? 2)%nat then o else escaped_line EscapeString o) original.

Definition starts_with (c : ascii) (line : string) : bool :=
  match line with
  | String c' _ => Ascii.eqb c' c
  | EmptyString => false
  end.

(** The text a list of segments stands for on the removed side (all but
    the insertions) and on the added side (all but the deletions). *)
Fixpoint removed_side (diffs : list diffmatchpatch.Diff) : string :=
  match diffs with
  | [] => EmptyString
  | diff :: rest =>
      match diffmatchpatch.Type_ diff with
      | diffmatchpatch.DiffInsert => removed_side rest
      | _ => diffmatchpatch.Text diff +:+ removed_side rest
      end
  end.

Fixpoint added_side (diffs : list diffmatchpatch.Diff) : string :=
  match diffs with
  | [] => EmptyString
  | diff :: rest =>
      match diffmatchpatch.Type_ diff with
      | diffmatchpatch.DiffDelete => added_side rest
      | _ => diffmatchpatch.Text diff +:+ added_side rest
      end
  end.

(** The texts an open batch holds are the rests of lines of [pre] that
    begin with [-] (for [d]) and with [+] (for [a]). *)
Definition batch_from (pre : list string) (batch : option renderBatch) : Prop :=
  match batch with
  | None => True
  | Some b =>
      (forall x, x ∈ d b -> String "-" x ∈ pre)
      /\ (forall y, y ∈ a b -> String "+" y ∈ pre)
  end.

(** A second stand-in for [DiffMain]: all of [x] deleted, all of [y]
    inserted. *)
Definition whole_DiffMain (x y : string) (checklines : bool)
  : list diffmatchpatch.Diff :=
  [diffmatchpatch.mkDiff diffmatchpatch.DiffDelete x;
   diffmatchpatch.mkDiff diffmatchpatch.DiffInsert y].

(** A renderer with line tags and no text tags. *)
Definition line_tags_only : CRender :=
  mkCRender (mkMarkupTag "<f>" "</f>") (mkMarkupTag "<n>" "</n>")
    (mkMarkupTag "<c>" "</c>")
    (mkAddRemTags (mkMarkupTag "<la>" "</la>") (mkMarkupTag "<lr>" "</lr>"))
    (mkAddRemTags (mkMarkupTag "" "") (mkMarkupTag "" "")).

(** [ApplyEdits] stand-ins: one that returns the content, one that panics. *)
Definition keep_content (content : string) (es : list TextEdit) : go string :=
  Ret content.

Definition always_panics (content : string) (es : list TextEdit) : go string :=
  Panic.

(** A hunk with additions only, and its text ending in a newline. *)
Definition added_only : list string :=
  ["--- a/f"; "+++ b/f"; "@@ -1,0 +1,2 @@"; "+x<y"; "+z"; ""]%string.

(** A heap with one renderer, as [NewRenderer] makes it, and its pointer. *)
Definition one_renderer : gmap nat CRender * nat := NewRendererIn ∅.

(** * Properties of the Diff engine *)

Lemma slice_get_in_range {A : Type} (s : list A) (i : Z) :
  0 <= i < len s -> exists x, slice_get s i = Ret x /\ s !! Z.to_nat i = Some x.
Proof.
  intros Hi. unfold slice_get, len in *.
  rewrite bool_decide_eq_true_2 by lia.
  destruct (lookup_lt_is_Some_2 s (Z.to_nat i)) as [x Hx]; [lia|].
  rewrite Hx. eauto.
Qed.

Lemma slice_get_out_of_range {A : Type} (s : list A) (i : Z) :
  i < 0 \/ len s <= i -> slice_get s i = Panic.
Proof.
  intros Hi. unfold slice_get, len in *.
  rewrite bool_decide_eq_false_2 by lia. reflexivity.
Qed.

Lemma slice_set_in_range {A : Type} (s : list A) (i : Z) (x : A) :
  0 <= i < len s -> slice_set s i x = Ret (<[Z.to_nat i := x]> s).
Proof.
  intros Hi. unfold slice_set, len in *.
  rewrite bool_decide_eq_true_2 by lia. reflexivity.
Qed.

Lemma in_range_true (n i : Z) :
  0 <= i < n -> (0 <? n) && (0 <=? i) && (i <? n) = true.
Proof. intros. repeat (apply andb_true_intro; split); lia. Qed.

Lemma in_range_false (n i : Z) :
  i < 0 \/ n <= i -> (0 <? n) && (0 <=? i) && (i <? n) = false.
Proof.
  intros. destruct (0 <? n) eqn:E1, (0 <=? i) eqn:E2, (i <? n) eqn:E3;
    simpl; try reflexivity; lia.
Qed.

Lemma guard_true (n i : Z) : 0 <= i < n -> (0 <=? i) && (i <? n) = true.
Proof. intros. apply andb_true_intro; split; lia. Qed.

Lemma guard_false (n i : Z) : i < 0 \/ n <= i -> (0 <=? i) && (i <? n) = false.
Proof.
  intros. destruct (0 <=? i) eqn:E2, (i <? n) eqn:E3; simpl; try reflexivity; lia.
Qed.

(** *** Grouping *)

Lemma init_step_concat st idx edit :
  concat (st_groups (init_step st idx edit)) ++ st_group (init_step st idx edit)
  = (concat (st_groups st) ++ st_group st) ++ [idx].
Proof.
  unfold init_step.
  destruct (st_previousLine st =? -1); simpl.
  - by rewrite app_assoc.
  - destruct (_ || _); simpl.
    + by rewrite app_assoc.
    + rewrite concat_app. simpl. by rewrite app_nil_r.
Qed.

Lemma init_loop_concat es : forall st idx,
  0 <= idx ->
  concat (st_groups st) ++ st_group st = seqZ 0 idx ->
  concat (st_groups (init_loop st idx es)) ++ st_group (init_loop st idx es)
  = seqZ 0 (idx + len es).
Proof.
  induction es as [|edit es IH]; intros st idx Hidx Hst; simpl.
  - unfold len. simpl. by rewrite Z.add_0_r.
  - rewrite IH; [| lia |].
    + f_equal. unfold len. simpl length. lia.
    + rewrite init_step_concat, Hst.
      rewrite (seqZ_app 0 idx 1) by lia. reflexivity.
Qed.

Lemma init_step_inv st idx edit : init_inv st -> init_inv (init_step st idx edit).
Proof.
  intros [Hne Hg]. unfold init_step, init_inv.
  destruct (st_previousLine st =? -1) eqn:Hp; simpl.
  - split; [done|]. intros H. by destruct (st_group st).
  - destruct (_ || _); simpl.
    + split; [done|]. intros H. by destruct (st_group st).
    + split; [|done].
      apply Forall_app. split; [done|].
      constructor; [|constructor].
      intros Hnil. destruct (Hg Hnil) as [Hs _]. lia.
Qed.

Lemma init_loop_inv es : forall st idx, init_inv st -> init_inv (init_loop st idx es).
Proof.
  induction es as [|edit es IH]; intros st idx Hst; simpl; [done|].
  apply IH. by apply init_step_inv.
Qed.

Lemma init_groups_concat es : concat (init_groups es) = seqZ 0 (len es).
Proof.
  unfold init_groups.
  pose proof (init_loop_concat es (mkInit [] (-1) []) 0 ltac:(lia) eq_refl) as H.
  simpl in H.
  destruct (0 <? len (st_group _)) eqn:E.
  - rewrite concat_app. simpl. by rewrite app_nil_r.
  - unfold len in E.
    destruct (st_group (init_loop (mkInit [] (-1) []) 0 es)) eqn:Eg.
    + by rewrite app_nil_r in H.
    + cbn [length] in E. lia.
Qed.

Lemma init_groups_nonempty es : Forall (fun g => g <> []) (init_groups es).
Proof.
  unfold init_groups.
  destruct (init_loop_inv es (mkInit [] (-1) []) 0) as [Hne _].
  { split; [constructor | done]. }
  destruct (0 <? len (st_group _)) eqn:E; [|done].
  apply Forall_app. split; [done|].
  constructor; [|constructor].
  intros Hnil. rewrite Hnil in E. unfold len in E. cbn [length] in E. lia.
Qed.

Lemma elem_of_concat_lookup {A : Type} (gs : list (list A)) n l x :
  gs !! n = Some l -> x ∈ l -> x ∈ concat gs.
Proof.
  revert n. induction gs as [|g0 gs IH]; intros n Hl Hx.
  - by rewrite lookup_nil in Hl.
  - simpl. apply elem_of_app. destruct n as [|n]; simpl in Hl.
    + left. by injection Hl as ->.
    + right. eauto.
Qed.

Lemma concat_NoDup_disjoint {A : Type} (gs : list (list A)) :
  NoDup (concat gs) ->
  forall j k g h x,
    gs !! j = Some g -> gs !! k = Some h -> x ∈ g -> x ∈ h -> j = k.
Proof.
  induction gs as [|g0 gs IH]; intros Hnd j k g h x Hj Hk Hg Hh.
  - by rewrite lookup_nil in Hj.
  - simpl in Hnd. apply NoDup_app in Hnd as (Hnd0 & Hsep & Hnd').
    pose proof (elem_of_concat_lookup gs) as Hin.
    destruct j as [|j], k as [|k]; simpl in Hj, Hk.
    + done.
    + injection Hj as <-. exfalso. eapply Hsep; eauto.
    + injection Hk as <-. exfalso. eapply Hsep; eauto.
    + f_equal. eapply IH; eauto.
Qed.

Section DiffEngine.

Variable ComputeEdits : string -> string -> string -> list TextEdit.
Variable ToUnified : string -> string -> string -> list TextEdit -> string.

(** C3: the groups of a Diff made by [New] partition the edit indices
    [0 .. Len()-1]: put end to end they are exactly the indices in
    increasing order (one pass from left to right, nothing re-ordered),
    so every index of an edit is in some group and nothing else is, two
    different groups share no index, and no group is empty. *)
Theorem New_groups_partition (p src chg : string) :
  concat (groups (New ComputeEdits p src chg))
  = seqZ 0 (Len (New ComputeEdits p src chg))
  /\ (forall i,
        (exists g, g ∈ groups (New ComputeEdits p src chg) /\ i ∈ g)
        <-> 0 <= i < Len (New ComputeEdits p src chg))
  /\ (forall j k g h i,
        groups (New ComputeEdits p src chg) !! j = Some g ->
        groups (New ComputeEdits p src chg) !! k = Some h ->
        i ∈ g -> i ∈ h -> j = k)
  /\ Forall (fun g => g <> []) (groups (New ComputeEdits p src chg)).
Proof.
  unfold Len. simpl.
  set (es := ComputeEdits p src chg).
  pose proof (init_groups_concat es) as Hc.
  split; [done|]. split; [|split].
  - intros i. rewrite <- (elem_of_seqZ 0 (len es) i), <- Hc. split.
    + intros (g & Hg & Hi).
      apply list_elem_of_lookup in Hg as [n Hn].
      by eapply elem_of_concat_lookup.
    + intros Hi. apply list_elem_of_In, in_concat in Hi as (g & Hg & Hi).
      exists g. by rewrite !list_elem_of_In.
  - apply concat_NoDup_disjoint. rewrite Hc. apply NoDup_seqZ.
  - apply init_groups_nonempty.
Qed.

(** *** Keep and skip *)

Lemma KeepEdit_in_range dd i :
  0 <= i < Len dd ->
  KeepEdit dd i
  = (if bool_decide (i ∈ keep dd) then dd else set_keep dd ({[i]} ∪ keep dd), true).
Proof. intros H. unfold KeepEdit. by rewrite in_range_true. Qed.

Lemma KeepEdit_out_of_range dd i :
  i < 0 \/ Len dd <= i -> KeepEdit dd i = (dd, false).
Proof. intros H. unfold KeepEdit. by rewrite in_range_false. Qed.

Lemma SkipEdit_in_range dd i :
  0 <= i < Len dd ->
  SkipEdit dd i
  = (if bool_decide (i ∈ keep dd) then (set_keep dd (keep dd ∖ {[i]}), true)
     else (dd, false)).
Proof. intros H. unfold SkipEdit. by rewrite in_range_true. Qed.

Lemma SkipEdit_out_of_range dd i :
  i < 0 \/ Len dd <= i -> SkipEdit dd i = (dd, false).
Proof. intros H. unfold SkipEdit. by rewrite in_range_false. Qed.

(** C4, as the code has it: [KeepEdit(i)] returns true exactly when [i]
    is in [0 .. Len()-1], whatever the keep state; [SkipEdit(i)] returns
    true exactly when [i] is in range and edit [i] is currently kept;
    for [i] out of range both leave the Diff as it is and return false. *)
Theorem KeepEdit_SkipEdit_result (dd : Diff) (i : Z) :
  snd (KeepEdit dd i) = bool_decide (0 <= i < Len dd)
  /\ snd (SkipEdit dd i) = bool_decide (0 <= i < Len dd /\ i ∈ keep dd)
  /\ (i < 0 \/ Len dd <= i ->
      KeepEdit dd i = (dd, false) /\ SkipEdit dd i = (dd, false)).
Proof.
  destruct (decide (0 <= i < Len dd)) as [Hin|Hout].
  - rewrite KeepEdit_in_range, SkipEdit_in_range by done.
    rewrite (bool_decide_eq_true_2 _ Hin).
    split; [done|]. split; [|lia].
    destruct (decide (i ∈ keep dd)) as [Hk|Hk].
    + rewrite (bool_decide_eq_true_2 _ Hk). simpl.
      symmetry. by apply bool_decide_eq_true_2.
    + rewrite (bool_decide_eq_false_2 _ Hk). simpl.
      symmetry. apply bool_decide_eq_false_2. tauto.
  - rewrite KeepEdit_out_of_range, SkipEdit_out_of_range by lia.
    rewrite (bool_decide_eq_false_2 _ Hout). simpl.
    split; [done|]. split; [|done].
    symmetry. apply bool_decide_eq_false_2. tauto.
Qed.

Lemma keep_size_delete (K : gset Z) (i : Z) :
  i ∈ K -> size K = (size (K ∖ {[i]}) + 1)%nat.
Proof.
  intros Hk.
  rewrite (union_difference_L {[i]} K) at 1 by (by apply singleton_subseteq_l).
  rewrite size_union by apply disjoint_difference_r1, reflexivity.
  rewrite size_singleton. lia.
Qed.

Lemma keep_insert_delete (K : gset Z) (i : Z) :
  i ∉ K -> ({[i]} ∪ K) ∖ {[i]} = K.
Proof.
  intros Hk. apply set_eq. intros x.
  rewrite elem_of_difference, elem_of_union, elem_of_singleton. split.
  - intros [[->|Hx] Hne]; done.
  - intros Hx. split; [by right|]. by intros ->.
Qed.

(** C5, as the code has it: [KeepEdit(i)] then [SkipEdit(i)] leaves
    [KeepLen()] as it was when [i] is out of range or edit [i] was not
    kept before; when [i] is in range and edit [i] was already kept,
    [KeepLen()] ends one lower. *)
Theorem KeepEdit_SkipEdit_KeepLen (dd : Diff) (i : Z) :
  KeepLen (fst (SkipEdit (fst (KeepEdit dd i)) i))
  = if bool_decide (0 <= i < Len dd /\ i ∈ keep dd) then KeepLen dd - 1
    else KeepLen dd.
Proof.
  destruct (decide (0 <= i < Len dd)) as [Hin|Hout].
  - rewrite KeepEdit_in_range by done.
    destruct (decide (i ∈ keep dd)) as [Hk|Hk].
    + rewrite (bool_decide_eq_true_2 _ Hk). simpl.
      rewrite SkipEdit_in_range, (bool_decide_eq_true_2 _ Hk) by done.
      rewrite bool_decide_eq_true_2 by done. simpl. unfold KeepLen. simpl.
      rewrite (keep_size_delete (keep dd) i Hk). lia.
    + rewrite (bool_decide_eq_false_2 _ Hk). simpl.
      rewrite SkipEdit_in_range by done. simpl.
      rewrite bool_decide_eq_true_2
        by (apply elem_of_union_l, elem_of_singleton; reflexivity).
      rewrite bool_decide_eq_false_2 by tauto. simpl. unfold KeepLen. simpl.
      by rewrite keep_insert_delete.
  - rewrite KeepEdit_out_of_range by lia. simpl.
    rewrite SkipEdit_out_of_range by lia. simpl.
    rewrite bool_decide_eq_false_2 by tauto. done.
Qed.

(** *** Labels *)

Lemma String_cons_ne (c : ascii) (t : string) : String c t <> t.
Proof.
  intros H. apply (f_equal String.length) in H. simpl in H. lia.
Qed.

Lemma abPaths_of_cases (p : string) :
  (p = EmptyString \/ exists t, p = String "/" t) /\
    abPaths_of p = ("a" +:+ p, "b" +:+ p)
  \/ ~ (p = EmptyString \/ exists t, p = String "/" t) /\
    abPaths_of p = ("a/" +:+ p, "b/" +:+ p).
Proof.
  destruct p as [|c t].
  - left. split; [by left | done].
  - unfold abPaths_of. destruct (Ascii.eqb_spec c "/") as [->|Hc].
    + left. split; [right; by eexists | done].
    + right. split; [|done].
      intros [H|[t' H]]; [done|]. injection H as H _. done.
Qed.

(** C8, as the code has it: the labels are always [a] and [b] followed
    by the path; a [/] is put between the letter and the path exactly
    when the path is not empty and does not begin with [/].  So the
    labels are [a/<path>] and [b/<path>] for a relative path, [a] and [b]
    for the empty path, and [a<path>] and [b<path>] (which still begin
    with [a/] and [b/]) for a path that begins with [/]; [Unified] hands
    these labels to the formatter. *)
Theorem abPaths_labels (dd : Diff) :
  ((path dd = EmptyString \/ exists t, path dd = String "/" t) ->
     abPaths dd = ("a" +:+ path dd, "b" +:+ path dd))
  /\ (~ (path dd = EmptyString \/ exists t, path dd = String "/" t) ->
     abPaths dd = ("a/" +:+ path dd, "b/" +:+ path dd))
  /\ (abPaths dd = ("a/" +:+ path dd, "b/" +:+ path dd)
      <-> ~ (path dd = EmptyString \/ exists t, path dd = String "/" t))
  /\ fst (Unified ToUnified dd)
     = ToUnified (fst (abPaths dd)) (snd (abPaths dd)) (source dd) (edits dd).
Proof.
  unfold Unified, abPaths.
  destruct (abPaths_of_cases (path dd)) as [[Hr ->]|[Hr ->]].
  - split; [done|]. split; [tauto|]. split; [|done]. split; [|tauto].
    intros H. exfalso. injection H as H _.
    destruct Hr as [Hr|[t Hr]]; rewrite Hr in H; simpl in H; [done|].
    injection H as H. cbn in H. symmetry in H. by apply String_cons_ne in H.
  - split; [tauto|]. split; [done|]. split; [|done]. tauto.
Qed.

(** C9: the error result of [Unified] is always nil. *)
Theorem Unified_error_nil (dd : Diff) : snd (Unified ToUnified dd) = None.
Proof. unfold Unified. by destruct (abPaths dd). Qed.

(** *** Reading and replacing the text of an edit *)

Lemma GetEdit_in_range dd i e :
  0 <= i < Len dd -> edits dd !! Z.to_nat i = Some e ->
  GetEdit dd i = Ret (NewText e, true).
Proof.
  intros Hi He. unfold GetEdit. rewrite guard_true by done.
  destruct (slice_get_in_range (edits dd) i Hi) as (x & -> & Hx).
  simpl. congruence.
Qed.

(** C10: for a valid index [i], [SetEdit(i, t)] returns true and
    [GetEdit(i)] then returns [(t, true)]; the path, the source, the
    changed text, the keep set, the groups, the number of edits, the span
    of every edit and the text of every other edit are as before. *)
Theorem SetEdit_GetEdit (dd : Diff) (i : Z) (t : string) :
  0 <= i < Len dd ->
  exists d',
    SetEdit dd i t = Ret (d', true)
    /\ GetEdit d' i = Ret (t, true)
    /\ keep d' = keep dd /\ groups d' = groups dd
    /\ path d' = path dd /\ source d' = source dd /\ changed d' = changed dd
    /\ Len d' = Len dd
    /\ Span <$> edits d' = Span <$> edits dd
    /\ (forall j, j <> i -> GetEdit d' j = GetEdit dd j).
Proof.
  intros Hi. unfold SetEdit. rewrite guard_true by done.
  destruct (slice_get_in_range (edits dd) i Hi) as (e & -> & He). simpl.
  rewrite slice_set_in_range by done. simpl.
  eexists. split; [reflexivity|].
  assert (HL : Len (set_edits dd (<[Z.to_nat i:=mkTextEdit (Span e) t]> (edits dd)))
               = Len dd).
  { unfold Len, len. simpl. by rewrite length_insert. }
  split.
  { apply (GetEdit_in_range _ _ (mkTextEdit (Span e) t)); [by rewrite HL|].
    simpl. apply list_lookup_insert_eq. unfold Len, len in Hi. lia. }
  do 5 (split; [done|]). split; [done|]. split.
  - simpl. rewrite list_fmap_insert. simpl.
    apply list_insert_id. by rewrite list_lookup_fmap, He.
  - intros j Hj. unfold GetEdit. rewrite HL.
    destruct ((0 <=? j) && (j <? Len dd)) eqn:Hg; [|done].
    unfold slice_get. simpl. rewrite length_insert.
    rewrite list_lookup_insert_ne by lia. done.
Qed.

(** *** Indices out of range *)

Lemma collect_returns (es : list TextEdit) (g : list Z) :
  Forall (fun gid => 0 <= gid < len es) g -> returns (collect es g).
Proof.
  induction 1 as [|gid g Hgid _ [r IH]]; simpl; [by eexists|].
  destruct (slice_get_in_range es gid Hgid) as (e & -> & _). simpl.
  rewrite IH. simpl. by eexists.
Qed.

(** The seven guarded operations return for every index; out of range
    they change nothing and report [false] or the empty string. *)
Lemma guarded_operations_out_of_range (dd : Diff) (i : Z) (t : string) :
  (i < 0 \/ Len dd <= i ->
     KeepEdit dd i = (dd, false) /\ SkipEdit dd i = (dd, false)
     /\ GetEdit dd i = Ret (EmptyString, false)
     /\ SetEdit dd i t = Ret (dd, false))
  /\ (i < 0 \/ EditGroupsLen dd <= i ->
     KeepGroup dd i = Ret dd /\ SkipGroup dd i = Ret dd
     /\ EditGroup ToUnified dd i = Ret EmptyString).
Proof.
  split; intros Hi.
  - rewrite KeepEdit_out_of_range, SkipEdit_out_of_range by done.
    unfold GetEdit, SetEdit. by rewrite guard_false.
  - unfold KeepGroup, SkipGroup, EditGroup, EditGroupsLen in *.
    destruct (abPaths dd). by rewrite guard_false.
Qed.

Lemma New_groups_valid (p src chg : string) :
  groups_valid (New ComputeEdits p src chg).
Proof.
  unfold groups_valid, Len. simpl.
  set (es := ComputeEdits p src chg).
  apply Forall_forall. intros g Hg. apply Forall_forall. intros gid Hgid.
  apply list_elem_of_lookup in Hg as [n Hn].
  pose proof (elem_of_concat_lookup _ _ _ _ Hn Hgid) as Hin.
  rewrite init_groups_concat in Hin. apply elem_of_seqZ in Hin. lia.
Qed.

(** With an index in range or not, the guarded operations return; so does
    [EditGroup] on a Diff whose groups hold indices of edits. *)
Lemma guarded_operations_return (dd : Diff) (i : Z) (t : string) :
  returns (KeepGroup dd i) /\ returns (SkipGroup dd i)
  /\ returns (GetEdit dd i) /\ returns (SetEdit dd i t)
  /\ (groups_valid dd -> returns (EditGroup ToUnified dd i)).
Proof.
  assert (Hgroups : returns (KeepGroup dd i) /\ returns (SkipGroup dd i)
                    /\ (groups_valid dd -> returns (EditGroup ToUnified dd i))).
  { unfold KeepGroup, SkipGroup, EditGroup. destruct (abPaths dd) as [ap bp].
    destruct ((0 <=? i) && (i <? len (groups dd))) eqn:Hg;
      [|repeat split; by eexists].
    destruct (slice_get_in_range (groups dd) i) as (g & -> & Hx); [lia|].
    simpl. split; [by eexists|]. split; [by eexists|].
    intros Hv. eapply Forall_lookup_1 in Hv; [|exact Hx].
    destruct (collect_returns _ _ Hv) as [es ->]. by eexists. }
  assert (Hedits : returns (GetEdit dd i) /\ returns (SetEdit dd i t)).
  { unfold GetEdit, SetEdit, Len.
    destruct ((0 <=? i) && (i <? len (edits dd))) eqn:He;
      [|split; by eexists].
    destruct (slice_get_in_range (edits dd) i) as (e & -> & Hx); [lia|].
    simpl. rewrite slice_set_in_range by lia. split; by eexists. }
  tauto.
Qed.

Lemma UnifiedEdit_out_of_range (dd : Diff) (i : Z) :
  i < 0 \/ Len dd <= i -> UnifiedEdit ToUnified dd i = Panic.
Proof.
  intros Hi. unfold UnifiedEdit. destruct (abPaths dd).
  by rewrite slice_get_out_of_range.
Qed.

End DiffEngine.

(** *** Concrete Diffs *)

Example grouping_5_6_8 :
  groups (New three_edits "f" "s" "c") = [[0; 1]; [2]].
Proof. reflexivity. Qed.

(** C1: [UnifiedEdit] indexes [d.edits] without the guard its siblings
    have, and panics on the index 0 of a Diff without edits. *)
Theorem UnifiedEdit_panics_on_empty_Diff :
  UnifiedEdit const_unified (New no_edits "f" "same" "same") 0 = Panic.
Proof. reflexivity. Qed.

(** * Properties of the renderer *)

Section RenderProperties.

Variable DiffMain : string -> string -> bool -> list diffmatchpatch.Diff.
Variable EscapeString : string -> string.
Variable r : CRender.

Local Abbreviation RenderLine := (RenderLine DiffMain EscapeString r).
Local Abbreviation pair_loop := (pair_loop DiffMain EscapeString r).
Local Abbreviation processRenderDiffBatch := (processRenderDiffBatch DiffMain EscapeString r).
Local Abbreviation prepare_step := (prepare_step DiffMain EscapeString r).
Local Abbreviation prepare_loop := (prepare_loop DiffMain EscapeString r).
Local Abbreviation prepareRenderDiff := (prepareRenderDiff DiffMain EscapeString r).
Local Abbreviation RenderDiff := (RenderDiff DiffMain EscapeString r).
Local Abbreviation tagged_line := (tagged_line r).
Local Abbreviation prepared_from := (prepared_from DiffMain EscapeString r).
Local Abbreviation lines_ok := (lines_ok DiffMain EscapeString r).
Local Abbreviation batch_at := (batch_at EscapeString).
Local Abbreviation prepare_inv := (prepare_inv DiffMain EscapeString r).

(** *** The flush *)

Lemma pair_loop_spec (lastIdx : Z) (b : renderBatch) :
  forall (ds : list string) (idx : Z) (lines : list string),
    0 <= idx -> idx + len ds = len (d b) ->
    len (d b) + len (a b) <= lastIdx <= len lines ->
    exists lines',
      pair_loop lastIdx (len (d b)) (len (a b)) b idx ds lines = Ret lines'
      /\ length lines' = length lines
      /\ (forall k x y,
            idx <= k -> d b !! Z.to_nat k = Some x -> a b !! Z.to_nat k = Some y ->
            lines' !! rem_slot lastIdx b k = Some ("-" +:+ fst (RenderLine x y))
            /\ lines' !! add_slot lastIdx b k = Some ("+" +:+ snd (RenderLine x y)))
      /\ (forall p,
            (forall k, idx <= k -> k < len (d b) -> k < len (a b) ->
                       p <> rem_slot lastIdx b k /\ p <> add_slot lastIdx b k) ->
            lines' !! p = lines !! p).
Proof.
  unfold rem_slot, add_slot, len.
  induction ds as [|x0 ds IH]; intros idx lines Hidx Hds Hlast.
  - simpl. exists lines. split; [done|]. split; [done|]. split; [|done].
    intros k x y Hk Hx Hy. apply lookup_lt_Some in Hx.
    cbn [length] in Hds. lia.
  - cbn [length] in Hds. cbn [Render.pair_loop].
    destruct (idx <? Z.of_nat (length (a b))) eqn:Hna.
    + destruct (slice_get_in_range (d b) idx) as (x1 & -> & Hx1); [unfold len; lia|].
      destruct (slice_get_in_range (a b) idx) as (y1 & -> & Hy1); [unfold len; lia|].
      cbn [mbind go_bind].
      destruct (RenderLine x1 y1) as [ma mb] eqn:HRL.
      rewrite slice_set_in_range by (unfold len; lia). cbn [mbind go_bind].
      rewrite slice_set_in_range by (unfold len; rewrite length_insert; lia).
      cbn [mbind go_bind].
      set (p1 := Z.to_nat (lastIdx - Z.of_nat (length (d b)) - Z.of_nat (length (a b)) + idx)).
      set (p2 := Z.to_nat (lastIdx - Z.of_nat (length (a b)) + idx)).
      destruct (IH (idx + 1) (<[p2:="+" +:+ mb]> (<[p1:="-" +:+ ma]> lines)))
        as (lines' & Hrun & Hlen & Hpairs & Hrest);
        [lia | lia | rewrite !length_insert; lia |].
      exists lines'. split; [done|]. rewrite !length_insert in Hlen.
      split; [done|]. split.
      * intros k x y Hk Hx Hy.
        destruct (decide (k = idx)) as [->|Hne]; [|apply Hpairs; [lia|done..]].
        assert (x = x1) as -> by congruence.
        assert (y = y1) as -> by congruence.
        rewrite HRL. cbn [fst snd]. fold p1 p2.
        rewrite !Hrest by (intros; subst p1 p2; lia).
        split.
        -- rewrite list_lookup_insert_ne by (subst p1 p2; lia).
           apply list_lookup_insert_eq. subst p1. lia.
        -- apply list_lookup_insert_eq. rewrite length_insert. subst p2. lia.
      * intros p Hp. rewrite Hrest by (intros; apply Hp; lia).
        destruct (Hp idx) as [Hp1 Hp2]; [lia..|]. fold p1 p2 in Hp1, Hp2.
        by rewrite !list_lookup_insert_ne.
    + cbn [mbind go_bind].
      destruct (IH (idx + 1) lines) as (lines' & Hrun & Hlen & Hpairs & Hrest);
        [lia..|].
      exists lines'. split; [done|]. split; [done|]. split.
      * intros k x y Hk Hx Hy.
        destruct (decide (k = idx)) as [->|Hne]; [|apply Hpairs; [lia|done..]].
        apply lookup_lt_Some in Hy. lia.
      * intros p Hp. apply Hrest. intros. apply Hp; lia.
Qed.

(** The flush proper: it returns, the paired slots hold the markup of
    [RenderLine] and every other slot is as before. *)
Lemma flush_spec (lastIdx : Z) (lines : list string) (b : renderBatch) :
  len (d b) + len (a b) <= lastIdx <= len lines ->
  exists lines',
    processRenderDiffBatch lastIdx lines (Some b) = Ret (lines', None)
    /\ length lines' = length lines
    /\ (forall (k : nat) x y,
          d b !! k = Some x -> a b !! k = Some y ->
          lines' !! rem_slot lastIdx b (Z.of_nat k)
            = Some ("-" +:+ fst (RenderLine x y))
          /\ lines' !! add_slot lastIdx b (Z.of_nat k)
            = Some ("+" +:+ snd (RenderLine x y)))
    /\ (forall p,
          (forall k, 0 <= k < Z.min (len (d b)) (len (a b)) ->
                     p <> rem_slot lastIdx b k /\ p <> add_slot lastIdx b k) ->
          lines' !! p = lines !! p)
    /\ (len (d b) = 0 \/ len (a b) = 0 -> lines' = lines).
Proof.
  intros Hlast. unfold Render.processRenderDiffBatch.
  destruct (0 <? len (d b)) eqn:Hd; [destruct (0 <? len (a b)) eqn:Ha|].
  - destruct (pair_loop_spec lastIdx b (d b) 0 lines)
      as (lines' & -> & Hlen & Hpairs & Hrest); [lia | unfold len; lia | done |].
    cbn [mbind go_bind]. exists lines'. split; [done|]. split; [done|].
    split; [|split; [|lia]].
    + intros k x y Hx Hy. apply Hpairs; [lia | by rewrite Nat2Z.id..].
    + intros p Hp. apply Hrest. intros k ? ? ?. apply Hp. lia.
  - cbn [mbind go_bind]. exists lines. split; [done|]. split; [done|].
    split; [|done].
    intros k x y _ Hy. apply lookup_lt_Some in Hy. unfold len in Ha. lia.
  - cbn [mbind go_bind]. exists lines. split; [done|]. split; [done|].
    split; [|done].
    intros k x y Hx _. apply lookup_lt_Some in Hx. unfold len in Hd. lia.
Qed.

(** *** The invariant of the scan of [prepareRenderDiff] *)

Lemma flush_preserves (pre lines : list string) (lastIdx : Z)
    (batch : option renderBatch) :
  lines_ok pre lines -> lastIdx <= len lines ->
  batch_at pre lines lastIdx batch ->
  exists lines',
    processRenderDiffBatch lastIdx lines batch = Ret (lines', None)
    /\ lines_ok pre lines'
    /\ (forall p, lastIdx <= Z.of_nat p -> lines' !! p = lines !! p).
Proof.
  intros [Hlen Hok] Hlast Hb. destruct batch as [b|]; [|by exists lines].
  destruct Hb as (Hd & Hfit & Hrem & Hadd).
  destruct (flush_spec lastIdx lines b)
    as (lines' & Hrun & Hlen' & Hpairs & Hrest & _); [lia|].
  exists lines'. split; [done|]. split; [split; [congruence|]|].
  - intros i o Hi.
    set (m := Z.min (len (d b)) (len (a b))).
    set (k1 := Z.of_nat i - (lastIdx - len (d b) - len (a b))).
    set (k2 := Z.of_nat i - (lastIdx - len (a b))).
    destruct (decide (0 <= k1 < m)) as [H1|H1];
      [|destruct (decide (0 <= k2 < m)) as [H2|H2]].
    + destruct (lookup_lt_is_Some_2 (d b) (Z.to_nat k1)) as [x Hx];
        [unfold len in *; lia|].
      destruct (lookup_lt_is_Some_2 (a b) (Z.to_nat k1)) as [y Hy];
        [unfold len in *; lia|].
      destruct (Hpairs _ _ _ Hx Hy) as [Hp _].
      destruct (Hrem _ _ Hx) as [Hpre _].
      assert (Hslot : rem_slot lastIdx b (Z.of_nat (Z.to_nat k1)) = i)
        by (unfold rem_slot; lia).
      rewrite Hslot in Hp, Hpre.
      assert (o = String "-" x) as -> by congruence.
      eexists. split; [exact Hp|]. unfold prepared_from.
      destruct (i <? 2)%nat eqn:Hi2; [lia|]. right. left. eauto.
    + destruct (lookup_lt_is_Some_2 (d b) (Z.to_nat k2)) as [x Hx];
        [unfold len in *; lia|].
      destruct (lookup_lt_is_Some_2 (a b) (Z.to_nat k2)) as [y Hy];
        [unfold len in *; lia|].
      destruct (Hpairs _ _ _ Hx Hy) as [_ Hp].
      destruct (Hadd _ _ Hy) as [Hpre _].
      assert (Hslot : add_slot lastIdx b (Z.of_nat (Z.to_nat k2)) = i)
        by (unfold add_slot; lia).
      rewrite Hslot in Hp, Hpre.
      assert (o = String "+" y) as -> by congruence.
      eexists. split; [exact Hp|]. unfold prepared_from.
      destruct (i <? 2)%nat eqn:Hi2; [lia|]. right. right. eauto.
    + rewrite Hrest; [by apply Hok|].
      intros k Hk. unfold rem_slot, add_slot. lia.
  - intros p Hp. apply Hrest. intros k Hk. unfold rem_slot, add_slot. lia.
Qed.

Lemma lines_ok_snoc (pre lines : list string) (o l : string) :
  lines_ok pre lines -> prepared_from (length pre) o l ->
  lines_ok (pre ++ [o]) (lines ++ [l]).
Proof.
  intros [Hlen Hok] Hnew. split; [rewrite !length_app; simpl; lia|].
  intros i o' Hi.
  destruct (decide (i < length pre)%nat) as [Hlt|Hge].
  - rewrite lookup_app_l in Hi by done. rewrite lookup_app_l by lia. eauto.
  - apply lookup_lt_Some in Hi as Hi'. rewrite length_app in Hi'. simpl in Hi'.
    assert (i = length pre) as -> by lia.
    rewrite list_lookup_middle in Hi by done. injection Hi as <-.
    exists l. split; [|done]. by rewrite list_lookup_middle.
Qed.

Lemma batch_at_snoc (pre lines : list string) (o l : string) (lastIdx : Z)
    (batch : option renderBatch) :
  length lines = length pre -> lastIdx <= len lines ->
  batch_at pre lines lastIdx batch ->
  batch_at (pre ++ [o]) (lines ++ [l]) lastIdx batch.
Proof.
  intros Hlen Hlast Hb. destruct batch as [b|]; [|done].
  destruct Hb as (Hd & Hfit & Hrem & Hadd).
  split; [done|]. split; [done|]. unfold len in *. split.
  - intros k x Hx. destruct (Hrem k x Hx) as [H1 H2].
    apply lookup_lt_Some in Hx.
    rewrite !lookup_app_l by (unfold rem_slot, len; lia). done.
  - intros k y Hy. destruct (Hadd k y Hy) as [H1 H2].
    apply lookup_lt_Some in Hy.
    rewrite !lookup_app_l by (unfold add_slot, len; lia). done.
Qed.

Lemma string_of_byte_minus (t : string) :
  string_of_byte "-" +:+ t = String "-" t.
Proof. reflexivity. Qed.

Lemma string_of_byte_plus (t : string) :
  string_of_byte "+" +:+ t = String "+" t.
Proof. reflexivity. Qed.

Lemma batch_at_open (pre lines : list string) (rest : string) :
  length lines = length pre -> 2 <= len pre ->
  batch_at (pre ++ [String "-" rest])
    (lines ++ [String "-" (EscapeString rest)])
    (len (lines ++ [String "-" (EscapeString rest)]))
    (Some (rem (mkBatch [] []) rest)).
Proof.
  intros Hlen Hpre. unfold batch_at, rem, rem_slot, add_slot, len in *.
  cbn [d a app length]. rewrite length_app. cbn [length].
  split; [lia|]. split; [lia|]. split.
  - intros k x Hx. destruct k as [|k]; [|by destruct k].
    injection Hx as <-.
    replace (Z.to_nat _) with (length pre) by lia.
    rewrite list_lookup_middle by done.
    by rewrite list_lookup_middle.
  - intros k y Hy. by destruct k.
Qed.

Lemma prepare_step_inv (pre : list string)
    (st : list string * option renderBatch) (line : string) :
  prepare_inv pre st ->
  exists st',
    prepare_step st (len pre) line = Ret st' /\ prepare_inv (pre ++ [line]) st'.
Proof.
  destruct st as [lines batch]. intros [Hok Hb]. cbn [fst snd] in *.
  pose proof Hok as [Hlen _].
  unfold Render.prepare_step.
  destruct (len pre <? 2) eqn:Hhdr.
  { eexists. split; [reflexivity|]. split; cbn [fst snd].
    - apply lines_ok_snoc; [done|]. unfold prepared_from.
      destruct (length pre <? 2)%nat eqn:E; [done|]. unfold len in Hhdr. lia.
    - destruct batch as [b|]; [|done]. destruct Hb as (? & ? & _).
      unfold len in *. lia. }
  assert (Hge : (length pre <? 2)%nat = false) by (unfold len in Hhdr; lia).
  destruct line as [|c rest].
  { destruct (flush_preserves (pre ++ [EmptyString]) (lines ++ [EmptyString])
                (len pre) batch) as (lines' & -> & Hok' & _).
    - apply lines_ok_snoc; [done|]. unfold prepared_from. by rewrite Hge.
    - unfold len. rewrite length_app. lia.
    - apply batch_at_snoc; [done | unfold len; lia |].
      unfold len in *. by rewrite <- Hlen.
    - by eexists. }
  set (l := string_of_byte c +:+ EscapeString rest).
  assert (Hok1 : lines_ok (pre ++ [String c rest]) (lines ++ [l])).
  { apply lines_ok_snoc; [done|]. unfold prepared_from. rewrite Hge. by left. }
  assert (Hflush : forall batch0,
    batch_at pre lines (len lines) batch0 ->
    exists lines',
      processRenderDiffBatch (len pre) (lines ++ [l]) batch0 = Ret (lines', None)
      /\ lines_ok (pre ++ [String c rest]) lines'
      /\ lines' !! length pre = Some l).
  { intros batch0 Hb0.
    destruct (flush_preserves (pre ++ [String c rest]) (lines ++ [l])
                (len pre) batch0) as (lines' & Hrun & Hok' & Hkeep).
    - done.
    - unfold len. rewrite length_app. lia.
    - apply batch_at_snoc; [done | unfold len; lia |].
      unfold len in *. by rewrite <- Hlen.
    - exists lines'. split; [done|]. split; [done|].
      rewrite Hkeep by (unfold len; lia).
      rewrite <- Hlen. by rewrite list_lookup_middle. }
  destruct batch as [b|].
  - destruct (Ascii.eqb_spec c "-") as [->|Hminus].
    + destruct (0 <? len (a b)) eqn:Hna.
      * destruct (Hflush (Some b) Hb) as (lines' & -> & Hok' & Hlast).
        cbn [mbind go_bind fst]. eexists. split; [reflexivity|].
        split; [done|]. cbn [fst snd].
        destruct Hok' as [Hlen' Hok'].
        rewrite length_app in Hlen'. cbn [length] in Hlen'.
        unfold batch_at, rem, rem_slot, add_slot, len in *. cbn [d a app length].
        split; [lia|]. split; [lia|]. split.
        -- intros k x Hx. destruct k as [|k]; [|by destruct k].
           injection Hx as <-.
           replace (Z.to_nat _) with (length pre) by lia.
           by rewrite list_lookup_middle.
        -- intros k y Hy. by destruct k.
      * eexists. split; [reflexivity|]. split; [done|]. cbn [fst snd].
        destruct Hb as (Hd & Hfit & Hrem & Hadd).
        unfold batch_at, rem, rem_slot, add_slot, len in *. cbn [d a].
        rewrite !length_app. cbn [length].
        split; [lia|]. split; [lia|]. split.
        -- intros k x Hx.
           destruct (decide (k < length (d b))%nat) as [Hk|Hk].
           ++ rewrite lookup_app_l in Hx by done.
              destruct (Hrem k x Hx) as [H1 H2].
              replace (Z.to_nat _) with
                (Z.to_nat (Z.of_nat (length lines) - Z.of_nat (length (d b))
                           - Z.of_nat (length (a b)) + Z.of_nat k)) by lia.
              rewrite !lookup_app_l by lia. done.
           ++ apply lookup_lt_Some in Hx as Hx'.
              rewrite length_app in Hx'. cbn [length] in Hx'.
              assert (k = length (d b)) as -> by lia.
              rewrite list_lookup_middle in Hx by done. injection Hx as <-.
              replace (Z.to_nat _) with (length pre) by lia.
              rewrite list_lookup_middle by done.
              by rewrite list_lookup_middle.
        -- intros k y Hy. apply lookup_lt_Some in Hy. lia.
    + destruct (Ascii.eqb_spec c "+") as [->|Hplus].
      * eexists. split; [reflexivity|]. split; [done|]. cbn [fst snd].
        destruct Hb as (Hd & Hfit & Hrem & Hadd).
        unfold batch_at, add, rem_slot, add_slot, len in *. cbn [d a].
        rewrite !length_app. cbn [length].
        split; [lia|]. split; [lia|]. split.
        -- intros k x Hx. destruct (Hrem k x Hx) as [H1 H2].
           apply lookup_lt_Some in Hx.
           replace (Z.to_nat _) with
             (Z.to_nat (Z.of_nat (length lines) - Z.of_nat (length (d b))
                        - Z.of_nat (length (a b)) + Z.of_nat k)) by lia.
           rewrite !lookup_app_l by lia. done.
        -- intros k y Hy.
           destruct (decide (k < length (a b))%nat) as [Hk|Hk].
           ++ rewrite lookup_app_l in Hy by done.
              destruct (Hadd k y Hy) as [H1 H2].
              replace (Z.to_nat _) with
                (Z.to_nat (Z.of_nat (length lines) - Z.of_nat (length (a b))
                           + Z.of_nat k)) by lia.
              rewrite !lookup_app_l by lia. done.
           ++ apply lookup_lt_Some in Hy as Hy'.
              rewrite length_app in Hy'. cbn [length] in Hy'.
              assert (k = length (a b)) as -> by lia.
              rewrite list_lookup_middle in Hy by done. injection Hy as <-.
              replace (Z.to_nat _) with (length pre) by lia.
              rewrite list_lookup_middle by done.
              by rewrite list_lookup_middle.
      * destruct (Hflush (Some b) Hb) as (lines' & -> & Hok' & _).
        by eexists.
  - destruct (Ascii.eqb_spec c "-") as [->|Hminus].
    + eexists. split; [reflexivity|]. split; [done|]. cbn [fst snd].
      apply batch_at_open; [done | lia].
    + eexists. split; [reflexivity|]. by split.
Qed.

Lemma prepare_loop_inv (original : list string) :
  forall pre st,
    prepare_inv pre st ->
    exists st',
      prepare_loop st (len pre) original = Ret st'
      /\ prepare_inv (pre ++ original) st'.
Proof.
  induction original as [|line rest IH]; intros pre st Hinv.
  - exists st. by rewrite app_nil_r.
  - cbn [Render.prepare_loop].
    destruct (prepare_step_inv pre st line Hinv) as (st1 & -> & Hinv1).
    cbn [mbind go_bind].
    destruct (IH _ _ Hinv1) as (st' & Hrun & Hinv').
    exists st'. rewrite <- app_assoc in Hinv'. split; [|done].
    rewrite <- Hrun. f_equal. unfold len. rewrite length_app. simpl. lia.
Qed.

(** The scan always returns: no flush indexes outside the lines, and
    every line of the result comes from the line at its index. *)
Lemma prepareRenderDiff_spec (original : list string) :
  exists lines,
    prepareRenderDiff original = Ret lines /\ lines_ok original lines.
Proof.
  unfold Render.prepareRenderDiff.
  destruct (prepare_loop_inv original [] ([], None)) as ([lines batch] & Hrun & Hinv).
  { split; [|done]. split; [done|]. intros i o Hi. by rewrite lookup_nil in Hi. }
  change (len []) with 0 in Hrun. rewrite Hrun. cbn [mbind go_bind fst snd].
  destruct Hinv as [Hok Hb]. cbn [fst snd app] in *.
  pose proof Hok as [Hlen _].
  destruct (flush_preserves original lines (len original) batch)
    as (lines' & -> & Hok' & _).
  - done.
  - unfold len. lia.
  - unfold len in *. by rewrite <- Hlen.
  - cbn [mbind go_bind fst]. by exists lines'.
Qed.

(** In every state of the scan with an open batch, the batch fits between
    the header and the lines read so far, and the slots counted back from
    there hold its removals and additions in their plain escaped form. *)
Lemma scan_batch_slots (pre lines : list string) (b : renderBatch) :
  prepare_loop ([], None) 0 pre = Ret (lines, Some b) ->
  length lines = length pre
  /\ 0 < len (d b)
  /\ 2 + len (d b) + len (a b) <= len pre
  /\ (forall (k : nat) x, d b !! k = Some x ->
        pre !! rem_slot (len pre) b (Z.of_nat k) = Some (String "-" x)
        /\ lines !! rem_slot (len pre) b (Z.of_nat k)
           = Some (String "-" (EscapeString x)))
  /\ (forall (k : nat) y, a b !! k = Some y ->
        pre !! add_slot (len pre) b (Z.of_nat k) = Some (String "+" y)
        /\ lines !! add_slot (len pre) b (Z.of_nat k)
           = Some (String "+" (EscapeString y))).
Proof.
  intros Hrun.
  destruct (prepare_loop_inv pre [] ([], None)) as (st & Hrun' & Hinv).
  { split; [|done]. split; [done|]. intros i o Hi. by rewrite lookup_nil in Hi. }
  change (len []) with 0 in Hrun'. rewrite Hrun in Hrun'. injection Hrun' as <-.
  destruct Hinv as [[Hlen _] Hb]. cbn [fst snd app] in *.
  unfold Render.batch_at, len in *. rewrite Hlen in Hb.
  destruct Hb as (Hd & Hfit & Hrem & Hadd). done.
Qed.

(** C2: a flush of a batch with [r] removals and [a] additions, at a
    [lastIdx] with [r + a <= lastIdx <= len(lines)], returns; for each
    index [k] below both [r] and [a] the slot [lastIdx - r - a + k] now
    holds [-] followed by the first markup of [RenderLine] on the raw
    [k]-th removal and [k]-th addition, and the slot [lastIdx - a + k]
    holds [+] followed by the second markup; every other slot, among
    them those of the removals and additions from [min r a] on, is as
    before; with no removal or no addition nothing is rewritten.  And
    whenever the scan of [prepareRenderDiff] has a batch open after the
    lines [pre], flushing at [lastIdx = len(pre)] meets that bound, and
    the slots of the batch hold the plain escaped lines [-] or [+]
    followed by the escaped raw text. *)
Theorem processRenderDiffBatch_pairs :
  (forall (lastIdx : Z) (lines : list string) (b : renderBatch),
     len (d b) + len (a b) <= lastIdx <= len lines ->
     exists lines',
       processRenderDiffBatch lastIdx lines (Some b) = Ret (lines', None)
       /\ length lines' = length lines
       /\ (forall (k : nat) x y,
             d b !! k = Some x -> a b !! k = Some y ->
             lines' !! rem_slot lastIdx b (Z.of_nat k)
               = Some ("-" +:+ fst (RenderLine x y))
             /\ lines' !! add_slot lastIdx b (Z.of_nat k)
               = Some ("+" +:+ snd (RenderLine x y)))
       /\ (forall p,
             (forall k, 0 <= k < Z.min (len (d b)) (len (a b)) ->
                        p <> rem_slot lastIdx b k /\ p <> add_slot lastIdx b k) ->
             lines' !! p = lines !! p)
       /\ (forall k, Z.min (len (d b)) (len (a b)) <= k < len (d b) ->
             lines' !! rem_slot lastIdx b k = lines !! rem_slot lastIdx b k)
       /\ (forall k, Z.min (len (d b)) (len (a b)) <= k < len (a b) ->
             lines' !! add_slot lastIdx b k = lines !! add_slot lastIdx b k)
       /\ (len (d b) = 0 \/ len (a b) = 0 -> lines' = lines))
  /\ (forall (pre lines : list string) (b : renderBatch),
       prepare_loop ([], None) 0 pre = Ret (lines, Some b) ->
       len (d b) + len (a b) <= len pre <= len lines
       /\ (forall (k : nat) x, d b !! k = Some x ->
             pre !! rem_slot (len pre) b (Z.of_nat k) = Some ("-" +:+ x)
             /\ lines !! rem_slot (len pre) b (Z.of_nat k)
                = Some ("-" +:+ EscapeString x))
       /\ (forall (k : nat) y, a b !! k = Some y ->
             pre !! add_slot (len pre) b (Z.of_nat k) = Some ("+" +:+ y)
             /\ lines !! add_slot (len pre) b (Z.of_nat k)
                = Some ("+" +:+ EscapeString y))).
Proof.
  split.
  - intros lastIdx lines b Hlast.
    destruct (flush_spec lastIdx lines b Hlast)
      as (lines' & Hrun & Hlen & Hpairs & Hrest & Hnone).
    exists lines'. do 4 (split; [done|]).
    split; [|split; [|done]].
    + intros k Hk. apply Hrest. intros k' Hk'. unfold rem_slot, add_slot. lia.
    + intros k Hk. apply Hrest. intros k' Hk'. unfold rem_slot, add_slot. lia.
  - intros pre lines b Hrun.
    destruct (scan_batch_slots pre lines b Hrun) as (Hlen & Hd & Hfit & Hrem & Hadd).
    split; [unfold len in *; lia|]. split; [exact Hrem | exact Hadd].
Qed.

(** *** The loop of [RenderDiff] *)

Lemma string_app_assoc (x y z : string) : (x +:+ y) +:+ z = x +:+ (y +:+ z).
Proof.
  induction x as [|c x IH]; [done|].
  change (String c ((x +:+ y) +:+ z) = String c (x +:+ (y +:+ z))).
  by rewrite IH.
Qed.

Lemma string_app_empty_r (x : string) : x +:+ EmptyString = x.
Proof.
  induction x as [|c x IH]; [done|].
  change (String c (x +:+ EmptyString) = String c x). by rewrite IH.
Qed.

Lemma RenderDiff_step_tagged (markup line : string) :
  RenderDiff_step r markup line = markup +:+ tagged_line line.
Proof.
  destruct line as [|c t]; simpl.
  - by rewrite string_app_empty_r.
  - by rewrite !string_app_assoc.
Qed.

Lemma RenderDiff_fold (lines : list string) :
  forall markup,
    fold_left (RenderDiff_step r) lines markup
    = markup +:+ RenderDiff_loop r lines.
Proof.
  unfold RenderDiff_loop.
  induction lines as [|l lines IH]; intros markup; simpl.
  - by rewrite string_app_empty_r.
  - rewrite IH, (IH (RenderDiff_step r EmptyString l)).
    rewrite (RenderDiff_step_tagged markup), (RenderDiff_step_tagged EmptyString).
    simpl. by rewrite string_app_assoc.
Qed.

Lemma RenderDiff_loop_cons (l : string) (lines : list string) :
  RenderDiff_loop r (l :: lines) = tagged_line l +:+ RenderDiff_loop r lines.
Proof.
  unfold RenderDiff_loop at 1. simpl.
  by rewrite RenderDiff_fold, RenderDiff_step_tagged.
Qed.




Lemma RenderDiff_unfold (unified : string) (lines : list string) :
  prepareRenderDiff (Split unified) = Ret lines ->
  RenderDiff unified
  = Ret ((Open (File r) +:+ RenderDiff_loop r lines) +:+ Close (File r)).
Proof. intros H. unfold Render.RenderDiff. by rewrite H. Qed.

(** C6, as the code has it: the first two lines are neither escaped nor
    touched by the pairing scan, but the loop of [RenderDiff] treats
    them like every other line: each is classified by its first byte and
    wrapped in the Line-added, Line-removed, Comment or Normal tags,
    followed by a newline (and adds nothing when it is empty), inside the
    one File tag pair around the whole body. *)
Theorem RenderDiff_header_lines (unified l0 l1 : string) (rest : list string) :
  Split unified = l0 :: l1 :: rest ->
  exists tail,
    prepareRenderDiff (Split unified) = Ret (l0 :: l1 :: tail)
    /\ RenderDiff unified
       = Ret ((Open (File r)
               +:+ (tagged_line l0 +:+ (tagged_line l1 +:+ RenderDiff_loop r tail)))
              +:+ Close (File r))
    /\ (forall c t, l0 = String c t ->
          tagged_line l0
          = ((Open (line_tag r c) +:+ l0) +:+ Close (line_tag r c)) +:+ nl)
    /\ (forall c t, l1 = String c t ->
          tagged_line l1
          = ((Open (line_tag r c) +:+ l1) +:+ Close (line_tag r c)) +:+ nl).
Proof.
  intros Hsplit.
  destruct (prepareRenderDiff_spec (Split unified)) as (lines & Hrun & Hlen & Hok).
  rewrite Hsplit in Hlen, Hok.
  destruct (Hok 0%nat l0 eq_refl) as (x0 & H0 & P0).
  destruct (Hok 1%nat l1 eq_refl) as (x1 & H1 & P1).
  destruct lines as [|y0 [|y1 tail]]; [done..|].
  cbn in H0, H1, P0, P1. simplify_eq.
  exists tail. split; [done|]. split.
  - rewrite (RenderDiff_unfold _ _ Hrun). by rewrite !RenderDiff_loop_cons.
  - split; by intros c t ->.
Qed.





End RenderProperties.

(** * The theorems at concrete inputs *)

Example render_one_hunk :
  RenderDiff affix_DiffMain html_EscapeString html_tags one_hunk
  = Ret ("<f><lr>--- a/f</lr>" +:+ nl +:+ "<la>+++ b/f</la>" +:+ nl
         +:+ "<c>@@ -1,1 +1,1 @@</c>" +:+ nl
         +:+ "<lr>-h<tr>e</tr>llo</lr>" +:+ nl
         +:+ "<la>+h<ta>u</ta>llo</la>" +:+ nl +:+ "</f>").
Proof. vm_compute. reflexivity. Qed.

Lemma New_groups_partition_witness :
  0 <= 2 < Len fresh_diff /\ exists g, g ∈ groups fresh_diff /\ 2 ∈ g.
Proof.
  assert (H : 0 <= 2 < Len fresh_diff) by (vm_compute; split; congruence).
  split; [exact H|].
  exact (proj2 (proj1 (proj2 (New_groups_partition three_edits "f" "s" "c")) 2) H).
Defined.

(** [SkipEdit(0)] on a Diff with three edits and nothing kept returns
    false although 0 is in range, and returns true once edit 0 is kept. *)
Lemma SkipEdit_result_counterexample :
  0 <= 0 < Len fresh_diff
  /\ snd (SkipEdit fresh_diff 0) = false
  /\ snd (SkipEdit kept_diff 0) = true.
Proof. vm_compute. repeat split; discriminate. Qed.

Lemma KeepEdit_SkipEdit_result_witness :
  (7 < 0 \/ Len fresh_diff <= 7)
  /\ KeepEdit fresh_diff 7 = (fresh_diff, false)
  /\ SkipEdit fresh_diff 7 = (fresh_diff, false).
Proof.
  assert (H : 7 < 0 \/ Len fresh_diff <= 7) by (right; vm_compute; congruence).
  split; [exact H|].
  exact (proj2 (proj2 (KeepEdit_SkipEdit_result fresh_diff 7)) H).
Defined.

(** With edit 0 already kept, [KeepEdit(0)] then [SkipEdit(0)] takes
    [KeepLen()] from 1 to 0. *)
Lemma KeepEdit_SkipEdit_KeepLen_counterexample :
  KeepLen (fst (SkipEdit (fst (KeepEdit kept_diff 0)) 0)) <> KeepLen kept_diff.
Proof. vm_compute. discriminate. Qed.

(** For the path [/x] the labels are [a/x] and [b/x]: the path begins with
    [/] and the labels still carry the [a/] and [b/] prefixes. *)
Lemma abPaths_rooted_counterexample :
  (exists t, path rooted_diff = String "/" t)
  /\ abPaths rooted_diff = ("a/x"%string, "b/x"%string)
  /\ String.prefix "a/" (fst (abPaths rooted_diff)) = true
  /\ String.prefix "b/" (snd (abPaths rooted_diff)) = true
  /\ fst (abPaths rooted_diff) <> path rooted_diff
  /\ snd (abPaths rooted_diff) <> path rooted_diff.
Proof. split; [by eexists | done]. Qed.

Lemma abPaths_labels_witness :
  (path rooted_diff = EmptyString \/ exists t, path rooted_diff = String "/" t)
  /\ abPaths rooted_diff = ("a" +:+ path rooted_diff, "b" +:+ path rooted_diff).
Proof.
  assert (H : path rooted_diff = EmptyString
              \/ exists t, path rooted_diff = String "/" t)
    by (right; exists "x"%string; reflexivity).
  split; [exact H|].
  exact (proj1 (abPaths_labels const_unified rooted_diff) H).
Defined.

Lemma SetEdit_GetEdit_witness :
  0 <= 1 < Len fresh_diff
  /\ exists d',
       SetEdit fresh_diff 1 "new" = Ret (d', true)
       /\ GetEdit d' 1 = Ret ("new"%string, true).
Proof.
  assert (H : 0 <= 1 < Len fresh_diff) by (vm_compute; split; congruence).
  split; [exact H|].
  destruct (SetEdit_GetEdit fresh_diff 1 "new" H) as (d' & Hset & Hget & _).
  exists d'. split; [exact Hset | exact Hget].
Defined.

Lemma processRenderDiffBatch_pairs_witness :
  (len (d run_batch) + len (a run_batch) <= 8 <= len run_lines
   /\ exists lines',
        processRenderDiffBatch affix_DiffMain html_EscapeString html_tags 8
          run_lines (Some run_batch) = Ret (lines', None)
        /\ length lines' = length run_lines)
  /\ (prepare_loop affix_DiffMain html_EscapeString html_tags ([], None) 0
        (take 8 run_raw) = Ret (take 8 run_lines, Some run_batch)
      /\ len (d run_batch) + len (a run_batch) <= len (take 8 run_raw)
         <= len (take 8 run_lines)).
Proof.
  assert (H : len (d run_batch) + len (a run_batch) <= 8 <= len run_lines)
    by (vm_compute; split; congruence).
  assert (Hscan : prepare_loop affix_DiffMain html_EscapeString html_tags
                    ([], None) 0 (take 8 run_raw)
                  = Ret (take 8 run_lines, Some run_batch)) by reflexivity.
  split.
  - split; [exact H|].
    destruct (proj1 (processRenderDiffBatch_pairs affix_DiffMain
                       html_EscapeString html_tags) 8 run_lines run_batch H)
      as (lines' & Hrun & Hlen & _).
    exists lines'. split; [exact Hrun | exact Hlen].
  - split; [exact Hscan|].
    exact (proj1 (proj2 (processRenderDiffBatch_pairs affix_DiffMain
                           html_EscapeString html_tags) _ _ _ Hscan)).
Defined.

Example flush_run :
  processRenderDiffBatch affix_DiffMain html_EscapeString html_tags 8
    run_lines (Some run_batch)
  = Ret (["--- a/f"; "+++ b/f"; "@@ -1,2 +1,3 @@"; "-a&lt;<tr>b</tr>"; "-<tr>x</tr>";
          "+a&lt;<ta>c</ta>"; "+<ta>y</ta>"; "+z"; " ctx"]%string, None).
Proof. vm_compute. reflexivity. Qed.

(** The header lines [--- a/f] and [+++ b/f] come out inside the
    Line-removed and Line-added tags, not bare. *)
Lemma RenderDiff_header_counterexample :
  RenderDiff affix_DiffMain html_EscapeString html_tags header_only
  = Ret ("<f><lr>--- a/f</lr>" +:+ nl +:+ "<la>+++ b/f</la>" +:+ nl +:+ "</f>")
  /\ RenderDiff affix_DiffMain html_EscapeString html_tags header_only
     <> Ret ("<f>--- a/f" +:+ nl +:+ "+++ b/f" +:+ nl +:+ "</f>").
Proof. split; vm_compute; [reflexivity | discriminate]. Qed.

Lemma RenderDiff_header_lines_witness :
  Split header_only = ["--- a/f"; "+++ b/f"]%string
  /\ exists tail,
       prepareRenderDiff affix_DiffMain html_EscapeString html_tags
         (Split header_only) = Ret ("--- a/f"%string :: "+++ b/f"%string :: tail).
Proof.
  assert (H : Split header_only = ["--- a/f"; "+++ b/f"]%string) by reflexivity.
  split; [exact H|].
  destruct (RenderDiff_header_lines affix_DiffMain html_EscapeString html_tags
              header_only _ _ _ H) as (tail & Hrun & _).
  exists tail. exact Hrun.
Defined.



(** [string(line[0])] on a byte from 0x80 on: the line that begins with
    C3 A9 is returned beginning with C3 83 A9. *)
Example prepareRenderDiff_first_byte_from_128 :
  prepareRenderDiff affix_DiffMain html_EscapeString html_tags accented_raw
  = Ret ["--- a/f"; "+++ b/f";
         String (ascii_of_nat 195)
           (String (ascii_of_nat 131) (String (ascii_of_nat 169) "t&lt;"))]%string.
Proof. vm_compute. reflexivity. Qed.

(** * More of the Diff engine *)

Section KeepOperations.

Variable ComputeEdits : string -> string -> string -> list TextEdit.
Variable ToUnified : string -> string -> string -> list TextEdit -> string.

Lemma set_keep_same (dd : Diff) : set_keep dd (keep dd) = dd.
Proof. by destruct dd. Qed.

Lemma KeepEdit_fst (dd : Diff) (i : Z) :
  0 <= i < Len dd -> fst (KeepEdit dd i) = set_keep dd ({[i]} ∪ keep dd).
Proof.
  intros Hi. rewrite KeepEdit_in_range by done.
  destruct (decide (i ∈ keep dd)) as [Hk|Hk].
  - rewrite (bool_decide_eq_true_2 _ Hk). simpl.
    rewrite (subseteq_union_1_L {[i]} (keep dd)) by (by apply singleton_subseteq_l).
    by rewrite set_keep_same.
  - by rewrite (bool_decide_eq_false_2 _ Hk).
Qed.

Lemma SkipEdit_fst (dd : Diff) (i : Z) :
  0 <= i < Len dd \/ i ∉ keep dd ->
  fst (SkipEdit dd i) = set_keep dd (keep dd ∖ {[i]}).
Proof.
  intros Hi.
  assert (Hnot : i ∉ keep dd -> set_keep dd (keep dd ∖ {[i]}) = dd).
  { intros Hk. rewrite (difference_disjoint_L (keep dd) {[i]}).
    - apply set_keep_same.
    - by apply disjoint_singleton_r. }
  destruct (decide (0 <= i < Len dd)) as [Hin|Hout].
  - rewrite SkipEdit_in_range by done.
    destruct (decide (i ∈ keep dd)) as [Hk|Hk].
    + by rewrite (bool_decide_eq_true_2 _ Hk).
    + rewrite (bool_decide_eq_false_2 _ Hk). simpl. by rewrite Hnot.
  - rewrite SkipEdit_out_of_range by lia. simpl.
    destruct Hi as [Hi|Hk]; [lia|]. by rewrite Hnot.
Qed.

(** X1: [KeepEdit] and [SkipEdit] undo each other on the whole Diff: keeping
    an edit that was not kept and skipping it again gives back the Diff,
    and so does skipping a kept edit and keeping it again; doing either
    twice is the same as doing it once. *)
Theorem KeepEdit_SkipEdit_inverse (dd : Diff) (i : Z) :
  (i ∉ keep dd -> fst (SkipEdit (fst (KeepEdit dd i)) i) = dd)
  /\ (i ∈ keep dd -> fst (KeepEdit (fst (SkipEdit dd i)) i) = dd)
  /\ fst (KeepEdit (fst (KeepEdit dd i)) i) = fst (KeepEdit dd i)
  /\ fst (SkipEdit (fst (SkipEdit dd i)) i) = fst (SkipEdit dd i).
Proof.
  destruct (decide (0 <= i < Len dd)) as [Hin|Hout].
  - repeat first [ rewrite KeepEdit_fst by (simpl; auto)
                   | rewrite SkipEdit_fst by (simpl; auto) ].
    unfold set_keep. simpl. split; [|split; [|split]].
    + intros Hk. rewrite keep_insert_delete by done. by destruct dd.
    + intros Hk.
      rewrite <- (union_difference_L {[i]} (keep dd)) by (by apply singleton_subseteq_l).
      by destruct dd.
    + f_equal. apply set_eq. intros x. rewrite !elem_of_union. tauto.
    + f_equal. apply set_eq. intros x. rewrite !elem_of_difference. tauto.
  - repeat first [ rewrite KeepEdit_out_of_range by (simpl; lia)
                   | rewrite SkipEdit_out_of_range by (simpl; lia)
                   | progress simpl ].
    done.
Qed.

Lemma KeepAll_elem_of (dd : Diff) (i : Z) :
  i ∈ keep (KeepAll dd) <-> 0 <= i < Len dd.
Proof.
  unfold Len, len. cbn [KeepAll set_keep keep].
  rewrite elem_of_list_to_set, list_elem_of_fmap. split.
  - intros (n & -> & Hn). apply elem_of_seq in Hn. lia.
  - intros Hi. exists (Z.to_nat i). rewrite elem_of_seq. lia.
Qed.

(** X2: [KeepAll] keeps exactly the indices of the edits, whatever was kept
    before, so [KeepLen()] is then [Len()]; after [SkipAll] nothing is
    kept; neither touches the edits or the groups. *)
Theorem KeepAll_SkipAll_keep (dd : Diff) :
  (forall i, i ∈ keep (KeepAll dd) <-> 0 <= i < Len dd)
  /\ KeepLen (KeepAll dd) = Len dd
  /\ keep (SkipAll dd) = ∅
  /\ KeepLen (SkipAll dd) = 0
  /\ edits (KeepAll dd) = edits dd /\ groups (KeepAll dd) = groups dd
  /\ edits (SkipAll dd) = edits dd /\ groups (SkipAll dd) = groups dd.
Proof.
  unfold KeepLen, Len, len.
  split; [|split; [|split; [done|split; [|done]]]]; cbn [KeepAll SkipAll set_keep keep].
  3: by rewrite size_empty.
  - intros i. apply KeepAll_elem_of.
  - rewrite size_list_to_set.
    + by rewrite length_fmap, length_seq.
    + apply NoDup_fmap_2; [apply Nat2Z.inj' | apply NoDup_seq].
Qed.

Lemma KeepEdits_spec (g : list Z) : forall dd,
  Forall (fun gid => 0 <= gid < Len dd) g ->
  KeepEdits dd g = set_keep dd (keep dd ∪ list_to_set g).
Proof.
  induction g as [|gid g IH]; intros dd Hg; simpl.
  - rewrite union_empty_r_L. symmetry. apply set_keep_same.
  - apply Forall_cons in Hg as [Hgid Hg].
    rewrite KeepEdit_fst by done. rewrite IH by done. unfold set_keep. simpl.
    f_equal. apply set_eq. intros x. rewrite !elem_of_union. tauto.
Qed.

Lemma SkipEdits_spec (g : list Z) : forall dd,
  Forall (fun gid => 0 <= gid < Len dd) g ->
  SkipEdits dd g = set_keep dd (keep dd ∖ list_to_set g).
Proof.
  induction g as [|gid g IH]; intros dd Hg; simpl.
  - rewrite difference_empty_L. symmetry. apply set_keep_same.
  - apply Forall_cons in Hg as [Hgid Hg].
    rewrite SkipEdit_fst by auto. rewrite IH by done. unfold set_keep. simpl.
    f_equal. apply set_eq. intros x.
    rewrite !elem_of_difference, elem_of_union. tauto.
Qed.

Lemma KeepGroup_spec (dd : Diff) (i : Z) (g : list Z) :
  groups_valid dd -> 0 <= i -> groups dd !! Z.to_nat i = Some g ->
  KeepGroup dd i = Ret (set_keep dd (keep dd ∪ list_to_set g))
  /\ SkipGroup dd i = Ret (set_keep dd (keep dd ∖ list_to_set g)).
Proof.
  intros Hv Hi Hg. unfold KeepGroup, SkipGroup.
  apply lookup_lt_Some in Hg as Hlt.
  rewrite guard_true by (unfold len; lia).
  destruct (slice_get_in_range (groups dd) i) as (g' & -> & Hg');
    [unfold len; lia|].
  assert (g' = g) as -> by congruence. simpl.
  eapply Forall_lookup_1 in Hv; [|exact Hg].
  by rewrite KeepEdits_spec, SkipEdits_spec.
Qed.

(** X3: On a Diff whose groups hold indices of edits, [KeepGroup(i)] for a
    group index in range adds exactly the indices of group [i] to the kept
    ones and [SkipGroup(i)] removes exactly those, so that every index of
    the group is kept after the first and none after the second; nothing
    else changes. *)
Theorem KeepGroup_SkipGroup_keep (dd : Diff) (i : Z) (g : list Z) :
  groups_valid dd -> 0 <= i -> groups dd !! Z.to_nat i = Some g ->
  exists dk ds,
    KeepGroup dd i = Ret dk /\ SkipGroup dd i = Ret ds
    /\ keep dk = keep dd ∪ list_to_set g
    /\ keep ds = keep dd ∖ list_to_set g
    /\ (forall gid, gid ∈ g -> gid ∈ keep dk /\ gid ∉ keep ds)
    /\ edits dk = edits dd /\ groups dk = groups dd
    /\ edits ds = edits dd /\ groups ds = groups dd.
Proof.
  intros Hv Hi Hg. destruct (KeepGroup_spec dd i g Hv Hi Hg) as [-> ->].
  eexists _, _. split; [reflexivity|]. split; [reflexivity|]. simpl.
  split; [done|]. split; [done|]. split; [|done].
  intros gid Hgid. rewrite elem_of_union, elem_of_difference, elem_of_list_to_set.
  tauto.
Qed.

Lemma KeepEdits_keep_valid (g : list Z) : forall dd,
  keep_valid dd -> keep_valid (KeepEdits dd g) /\ Len (KeepEdits dd g) = Len dd.
Proof.
  induction g as [|gid g IH]; intros dd Hv; simpl; [done|].
  assert (H1 : keep_valid (fst (KeepEdit dd gid))
               /\ Len (fst (KeepEdit dd gid)) = Len dd).
  { destruct (decide (0 <= gid < Len dd)) as [Hin|Hout].
    - rewrite KeepEdit_fst by done. split; [|done].
      intros x. simpl. rewrite elem_of_union, elem_of_singleton.
      intros [->|Hx]; [done | by apply Hv].
    - by rewrite KeepEdit_out_of_range by lia. }
  destruct H1 as [H1 H2]. destruct (IH _ H1) as [H3 H4].
  split; [done | congruence].
Qed.



(** X5: The seven operations that guard their index return for every index;
    for an index out of range they leave the Diff as it is and report
    false or the empty string.  ([EditGroup] reads the edits of a group,
    which a Diff made by [New] always has.) *)
Theorem guarded_operations_safe (dd : Diff) (i : Z) (t : string) :
  (returns (KeepGroup dd i) /\ returns (SkipGroup dd i)
   /\ returns (GetEdit dd i) /\ returns (SetEdit dd i t)
   /\ (groups_valid dd -> returns (EditGroup ToUnified dd i)))
  /\ (i < 0 \/ Len dd <= i ->
      KeepEdit dd i = (dd, false) /\ SkipEdit dd i = (dd, false)
      /\ GetEdit dd i = Ret (EmptyString, false)
      /\ SetEdit dd i t = Ret (dd, false))
  /\ (i < 0 \/ EditGroupsLen dd <= i ->
      KeepGroup dd i = Ret dd /\ SkipGroup dd i = Ret dd
      /\ EditGroup ToUnified dd i = Ret EmptyString)
  /\ (forall p src chg, groups_valid (New ComputeEdits p src chg)).
Proof.
  split; [apply guarded_operations_return; exact ComputeEdits|].
  split; [exact (proj1 (guarded_operations_out_of_range ToUnified dd i t))|].
  split; [exact (proj2 (guarded_operations_out_of_range ToUnified dd i t))|].
  apply New_groups_valid.
Qed.

Lemma length_concat_nonempty {A : Type} (gs : list (list A)) :
  Forall (fun g => g <> []) gs -> (length gs <= length (concat gs))%nat.
Proof.
  induction 1 as [|g gs Hg _ IH]; simpl; [lia|].
  rewrite length_app. destruct g; [done|]. simpl. lia.
Qed.

(** X6: A Diff made by [New] has at most as many groups as edits, and no
    group exactly when it has no edit. *)
Theorem New_group_count (p src chg : string) :
  0 <= EditGroupsLen (New ComputeEdits p src chg) <= Len (New ComputeEdits p src chg)
  /\ (EditGroupsLen (New ComputeEdits p src chg) = 0
      <-> Len (New ComputeEdits p src chg) = 0).
Proof.
  unfold EditGroupsLen, Len. simpl.
  set (es := ComputeEdits p src chg).
  pose proof (length_concat_nonempty _ (init_groups_nonempty es)) as Hle.
  pose proof (init_groups_concat es) as Hc.
  apply (f_equal length) in Hc as Hlen. rewrite length_seqZ in Hlen.
  unfold len in *. split; [lia|]. split; [|lia].
  intros H0. destruct (init_groups es) as [|g gs]; [simpl in Hlen; lia|].
  simpl in H0. lia.
Qed.

End KeepOperations.

(** *** Which edits share a group *)

Section Grouping.

Variable ComputeEdits : string -> string -> string -> list TextEdit.

Lemma same_group_snoc_open (gs : list (list Z)) (group : list Z) (idx a b : Z) :
  a <> idx -> b <> idx ->
  same_group (gs ++ [group ++ [idx]]) a b <-> same_group (gs ++ [group]) a b.
Proof.
  intros Ha Hb. unfold same_group. split; intros (g & Hg & Hag & Hbg).
  - apply elem_of_app in Hg as [Hg|Hg].
    + exists g. rewrite elem_of_app. auto.
    + apply list_elem_of_singleton in Hg as ->. exists group.
      rewrite elem_of_app, list_elem_of_singleton.
      rewrite elem_of_app, list_elem_of_singleton in Hag, Hbg.
      destruct Hag as [?|?], Hbg as [?|?]; try done. auto.
  - apply elem_of_app in Hg as [Hg|Hg].
    + exists g. rewrite elem_of_app. auto.
    + apply list_elem_of_singleton in Hg as ->. exists (group ++ [idx]).
      rewrite !elem_of_app, !list_elem_of_singleton. auto.
Qed.

Lemma same_group_snoc_closed (G : list (list Z)) (idx a b : Z) :
  a <> idx -> same_group (G ++ [[idx]]) a b <-> same_group G a b.
Proof.
  intros Ha. unfold same_group. split; intros (g & Hg & Hag & Hbg).
  - apply elem_of_app in Hg as [Hg|Hg]; [by exists g|].
    apply list_elem_of_singleton in Hg as ->.
    by apply list_elem_of_singleton in Hag.
  - exists g. rewrite elem_of_app. auto.
Qed.

Lemma init_step_run_inv (pre : list TextEdit) (st : initState) (e : TextEdit) :
  (forall x, x ∈ pre ++ [e] -> end_line x <> -1) ->
  init_run_inv pre st -> init_run_inv (pre ++ [e]) (init_step st (len pre) e).
Proof.
  intros Hline (Hc & Hlast & Hpairs).
  assert (Hlen : len (pre ++ [e]) = len pre + 1)
    by (unfold len; rewrite length_app; simpl; lia).
  assert (Hc' : concat (st_groups (init_step st (len pre) e))
                ++ st_group (init_step st (len pre) e) = seqZ 0 (len (pre ++ [e]))).
  { rewrite init_step_concat, Hc, Hlen.
    rewrite (seqZ_app 0 (len pre) 1) by (unfold len; lia). reflexivity. }
  split; [exact Hc'|]. rewrite last_snoc.
  destruct (last pre) as [e0|] eqn:Hlp.
  - destruct Hlast as [Hprev Hin].
    assert (He0 : pre !! Z.to_nat (len pre - 1) = Some e0).
    { rewrite last_lookup in Hlp. rewrite <- Hlp. f_equal. unfold len. lia. }
    assert (Hpos : 0 < len pre).
    { apply lookup_lt_Some in He0. unfold len in *. lia. }
    assert (Hne0 : end_line e0 <> -1).
    { apply Hline. apply elem_of_app. left. by eapply list_elem_of_lookup_2. }
    assert (Hbound : forall g a, g ∈ st_groups st ++ [st_group st] -> a ∈ g ->
                                 a < len pre).
    { intros g a Hg Ha.
      assert (Hin' : a ∈ concat (st_groups st) ++ st_group st).
      { apply elem_of_app. apply elem_of_app in Hg as [Hg|Hg].
        - left. apply list_elem_of_lookup in Hg as [n Hn].
          by eapply elem_of_concat_lookup.
        - right. by apply list_elem_of_singleton in Hg as ->. }
      rewrite Hc in Hin'. apply elem_of_seqZ in Hin'. lia. }
    assert (Hcases : forall (i : nat) x x',
      (pre ++ [e]) !! i = Some x -> (pre ++ [e]) !! S i = Some x' ->
      (pre !! i = Some x /\ pre !! S i = Some x')
      \/ (Z.of_nat i = len pre - 1 /\ x = e0 /\ x' = e)).
    { intros i x x' Hx Hx'.
      apply lookup_lt_Some in Hx' as Hlt. rewrite length_app in Hlt. simpl in Hlt.
      destruct (decide (S i < length pre)%nat) as [Hs|Hs].
      - left. rewrite lookup_app_l in Hx, Hx' by lia. done.
      - right. assert (S i = length pre) as HS by lia.
        rewrite HS, list_lookup_middle in Hx' by done.
        rewrite lookup_app_l in Hx by lia.
        replace i with (Z.to_nat (len pre - 1)) in Hx by (unfold len; lia).
        split; [unfold len; lia|]. split; congruence. }
    unfold init_step. fold (end_line e). rewrite Hprev.
    destruct (end_line e0 =? -1) eqn:Hs; [lia|].
    destruct ((end_line e =? end_line e0) || (end_line e =? end_line e0 + 1)) eqn:Hadj;
      cbn [st_groups st_previousLine st_group].
    + split.
      { split; [done|]. rewrite Hlen, elem_of_app, list_elem_of_singleton.
        right. lia. }
      intros i x x' Hx Hx'.
      destruct (Hcases i x x' Hx Hx') as [[H1 H2]|(Hi & -> & ->)].
      * rewrite same_group_snoc_open.
        -- by apply Hpairs.
        -- apply lookup_lt_Some in H2. unfold len. lia.
        -- apply lookup_lt_Some in H2. unfold len. lia.
      * split; [intros _; unfold adjacent_lines; lia|]. intros _.
        exists (st_group st ++ [len pre]).
        split; [apply elem_of_app; right; by apply list_elem_of_singleton|].
        rewrite !elem_of_app, !list_elem_of_singleton. split.
        -- left. by rewrite Hi.
        -- right. lia.
    + split.
      { split; [done|]. rewrite Hlen, list_elem_of_singleton. lia. }
      intros i x x' Hx Hx'.
      destruct (Hcases i x x' Hx Hx') as [[H1 H2]|(Hi & -> & ->)].
      * rewrite same_group_snoc_closed.
        -- by apply Hpairs.
        -- apply lookup_lt_Some in H2. unfold len. lia.
      * split; [|unfold adjacent_lines; lia].
        intros (g & Hg & Hag & Hbg). exfalso.
        apply elem_of_app in Hg as [Hg|Hg].
        -- pose proof (Hbound g _ Hg Hbg). lia.
        -- apply list_elem_of_singleton in Hg as ->.
           apply list_elem_of_singleton in Hag. lia.
  - apply last_None in Hlp as ->. subst st. cbn.
    split; [split; [done|]|].
    + apply list_elem_of_singleton. reflexivity.
    + intros i x x' _ Hx'. by destruct i.
Qed.

Lemma init_loop_run_inv (suffix : list TextEdit) : forall pre st,
  (forall x, x ∈ pre ++ suffix -> end_line x <> -1) ->
  init_run_inv pre st ->
  init_run_inv (pre ++ suffix) (init_loop st (len pre) suffix).
Proof.
  induction suffix as [|e suffix IH]; intros pre st Hline Hinv; simpl.
  - by rewrite app_nil_r.
  - rewrite (cons_middle e pre suffix), app_assoc in Hline |- *.
    replace (len pre + 1) with (len (pre ++ [e]))
      by (unfold len; rewrite length_app; simpl; lia).
    apply IH; [done|]. apply init_step_run_inv; [|done].
    intros x Hx. apply Hline. apply elem_of_app. by left.
Qed.

(** X7: When no edit ends on line -1 (the lines of gotextdiff start at 1), two
    edits next to each other are in the same group of a Diff made by [New]
    exactly when the second ends on the line the first ends on or on the
    line after it: the groups are the longest runs of such edits. *)
Theorem New_groups_adjacent (p src chg : string) (i : nat) (e e' : TextEdit) :
  (forall x, x ∈ edits (New ComputeEdits p src chg) -> end_line x <> -1) ->
  edits (New ComputeEdits p src chg) !! i = Some e ->
  edits (New ComputeEdits p src chg) !! S i = Some e' ->
  same_group (groups (New ComputeEdits p src chg)) (Z.of_nat i) (Z.of_nat (S i))
  <-> adjacent_lines (end_line e) (end_line e').
Proof.
  simpl. set (es := ComputeEdits p src chg). intros Hline He He'.
  destruct (init_loop_run_inv es [] (mkInit [] (-1) [])) as (Hc & Hlast & Hpairs).
  { done. }
  { split; [done|]. split; [done|]. intros ? ? ? H. by rewrite lookup_nil in H. }
  simpl in Hc, Hlast, Hpairs. change (len []) with 0 in *.
  unfold init_groups.
  destruct (last es) as [e0|] eqn:Hlp.
  - destruct Hlast as [_ Hin].
    destruct (0 <? len (st_group (init_loop (mkInit [] (-1) []) 0 es))) eqn:Hpos.
    + by apply Hpairs.
    + destruct (st_group (init_loop (mkInit [] (-1) []) 0 es));
        [by apply elem_of_nil in Hin | unfold len in Hpos; cbn [length] in Hpos; lia].
  - apply last_None in Hlp. rewrite Hlp in He. by rewrite lookup_nil in He.
Qed.

Lemma init_loop_spans (es1 : list TextEdit) : forall es2 st idx,
  Span <$> es1 = Span <$> es2 -> init_loop st idx es1 = init_loop st idx es2.
Proof.
  induction es1 as [|e1 es1 IH]; intros [|e2 es2] st idx Hs; try done.
  simpl in Hs. injection Hs as He Hs. simpl.
  replace (init_step st idx e1) with (init_step st idx e2)
    by (unfold init_step; by rewrite He).
  by apply IH.
Qed.

(** X8: [SetEdit] changes no span, and the groups depend on the spans alone:
    grouping the edits again after any [SetEdit] gives the groups the Diff
    already has. *)
Theorem SetEdit_keeps_grouping (dd : Diff) (i : Z) (t : string) (d' : Diff)
    (ok : bool) :
  SetEdit dd i t = Ret (d', ok) ->
  init_groups (edits d') = init_groups (edits dd) /\ groups d' = groups dd.
Proof.
  unfold SetEdit. destruct (_ && _) eqn:Hg; [|by intros [= <- _]].
  destruct (slice_get_in_range (edits dd) i) as (e & -> & He);
    [unfold Len in Hg; lia|].
  simpl. rewrite slice_set_in_range by (unfold Len in Hg; lia). simpl.
  intros [= <- _]. split; [|done]. simpl. unfold init_groups.
  rewrite (init_loop_spans _ (edits dd)); [done|].
  rewrite list_fmap_insert. simpl.
  apply list_insert_id. by rewrite list_lookup_fmap, He.
Qed.

End Grouping.

(** *** The outputs from the kept edits *)

Section OutputProperties.

Variable ComputeEdits : string -> string -> string -> list TextEdit.
Variable ToUnified : string -> string -> string -> list TextEdit -> string.
Variable ApplyEdits : string -> list TextEdit -> go string.

Lemma SortedNumbers_elem_of (k : gset Z) (i : Z) : i ∈ SortedNumbers k <-> i ∈ k.
Proof. unfold SortedNumbers. by rewrite merge_sort_Permutation, elem_of_elements. Qed.

Lemma SortedNumbers_ascending (k : gset Z) :
  Sorted Z.le (SortedNumbers k) /\ NoDup (SortedNumbers k).
Proof.
  unfold SortedNumbers. split; [apply (Sorted_merge_sort Z.le)|].
  rewrite merge_sort_Permutation. apply NoDup_elements.
Qed.

Lemma SortedNumbers_list_to_set (l : list Z) :
  Sorted Z.le l -> NoDup l -> SortedNumbers (list_to_set l) = l.
Proof.
  intros Hs Hnd. apply (Sorted_unique Z.le); [apply SortedNumbers_ascending | done |].
  unfold SortedNumbers. rewrite merge_sort_Permutation.
  by apply elements_list_to_set.
Qed.

Lemma Sorted_seqZ (m n : Z) : Sorted Z.le (seqZ m n).
Proof.
  destruct (decide (0 <= n)) as [Hn|Hn]; [|rewrite seqZ_nil by lia; constructor].
  rewrite <- (Z2Nat.id n) by done. clear Hn.
  generalize (Z.to_nat n). intros k. revert m.
  induction k as [|k IH]; intros m; [constructor|].
  rewrite seqZ_cons by lia.
  replace (Z.pred (Z.of_nat (S k))) with (Z.of_nat k) by lia.
  constructor; [apply IH|].
  destruct k as [|k]; [constructor|].
  rewrite seqZ_cons by lia. constructor. lia.
Qed.

Lemma Sorted_sublist_concat (gs : list (list Z)) :
  StronglySorted Z.le (concat gs) -> Forall (Sorted Z.le) gs.
Proof.
  induction gs as [|g gs IH]; intros Hs; [constructor|].
  simpl in Hs. constructor.
  - apply StronglySorted_Sorted. by eapply StronglySorted_app_1_l.
  - apply IH. by eapply StronglySorted_app_1_r.
Qed.

Lemma NoDup_sublist_concat {A : Type} (gs : list (list A)) :
  NoDup (concat gs) -> Forall NoDup gs.
Proof.
  induction gs as [|g gs IH]; intros Hnd; [constructor|].
  simpl in Hnd. apply NoDup_app in Hnd as (H1 & _ & H2).
  constructor; [done | by apply IH].
Qed.

(** The edits read by the loop [edits = append(edits, d.edits[index])]. *)
Lemma collect_spec (es : list TextEdit) (gids : list Z) :
  Forall (fun gid => 0 <= gid < len es) gids ->
  exists es',
    collect es gids = Ret es'
    /\ Forall2 (fun gid e => es !! Z.to_nat gid = Some e) gids es'.
Proof.
  induction 1 as [|gid gids Hgid _ (es' & IH & Hall)]; simpl.
  - exists []. split; [done | constructor].
  - destruct (slice_get_in_range es gid Hgid) as (e & -> & He). simpl.
    rewrite IH. simpl. exists (e :: es'). split; [done|]. by constructor.
Qed.

Lemma collect_seqZ (suffix : list TextEdit) : forall pre,
  collect (pre ++ suffix) (seqZ (len pre) (len suffix)) = Ret suffix.
Proof.
  induction suffix as [|e suffix IH]; intros pre; [done|].
  rewrite seqZ_cons by (unfold len; simpl; lia). simpl.
  destruct (slice_get_in_range (pre ++ e :: suffix) (len pre)) as (x & -> & Hx).
  { unfold len. rewrite length_app. simpl. lia. }
  unfold len in Hx. rewrite Nat2Z.id, list_lookup_middle in Hx by done.
  injection Hx as <-. simpl.
  specialize (IH (pre ++ [e])). rewrite <- app_assoc in IH. simpl in IH.
  replace (Z.succ (len pre)) with (len (pre ++ [e]))
    by (unfold len; rewrite length_app; simpl; lia).
  replace (Z.pred (len (e :: suffix))) with (len suffix)
    by (unfold len; simpl; lia).
  by rewrite IH.
Qed.

Lemma keep_valid_sorted (dd : Diff) :
  keep_valid dd ->
  Forall (fun gid => 0 <= gid < len (edits dd)) (SortedNumbers (keep dd)).
Proof.
  intros Hv. apply Forall_forall. intros gid Hgid.
  apply SortedNumbers_elem_of in Hgid. by apply Hv.
Qed.

(** X9: With every kept index in range, [UnifiedEdits] returns the unified
    diff of exactly the kept edits, each once, in ascending order of their
    indices, whatever the order in which they were kept. *)
Theorem UnifiedEdits_kept (dd : Diff) :
  keep_valid dd ->
  exists es',
    UnifiedEdits ToUnified dd
    = Ret (ToUnified (fst (abPaths dd)) (snd (abPaths dd)) (source dd) es')
    /\ Forall2 (fun gid e => edits dd !! Z.to_nat gid = Some e)
         (SortedNumbers (keep dd)) es'
    /\ Sorted Z.le (SortedNumbers (keep dd))
    /\ NoDup (SortedNumbers (keep dd))
    /\ (forall i, i ∈ SortedNumbers (keep dd) <-> i ∈ keep dd).
Proof.
  intros Hv. unfold UnifiedEdits. destruct (abPaths dd) as [ap bp].
  destruct (collect_spec _ _ (keep_valid_sorted dd Hv)) as (es' & -> & Hall).
  exists es'. split; [done|]. split; [done|].
  split; [apply SortedNumbers_ascending|].
  split; [apply SortedNumbers_ascending | apply SortedNumbers_elem_of].
Qed.

Lemma SortedNumbers_KeepAll (dd : Diff) :
  SortedNumbers (keep (KeepAll dd)) = seqZ 0 (len (edits dd)).
Proof.
  simpl. replace (Z.of_nat <$> seq 0 (length (edits dd))) with (seqZ 0 (len (edits dd))).
  - apply SortedNumbers_list_to_set; [apply Sorted_seqZ | apply NoDup_seqZ].
  - unfold seqZ, len. rewrite Nat2Z.id. apply list_fmap_ext. intros ? ? _. lia.
Qed.

(** X10: After [KeepAll], [UnifiedEdits] is the text of [Unified], and
    [ModifiedEdits] applies all the edits in order; after [SkipAll],
    [ModifiedEdits] applies no edit.  The error of [ModifiedEdits] is nil
    when [ApplyEdits] returns, and when it panics the error is set and the
    text is empty. *)
Theorem KeepAll_SkipAll_outputs (dd : Diff) :
  UnifiedEdits ToUnified (KeepAll dd) = Ret (fst (Unified ToUnified dd))
  /\ ModifiedEdits ApplyEdits (KeepAll dd)
     = match ApplyEdits (source dd) (edits dd) with
       | Ret modified => (modified, None)
       | Panic => (EmptyString, Some gotextdiff_error)
       end
  /\ ModifiedEdits ApplyEdits (SkipAll dd)
     = match ApplyEdits (source dd) [] with
       | Ret modified => (modified, None)
       | Panic => (EmptyString, Some gotextdiff_error)
       end.
Proof.
  unfold UnifiedEdits, ModifiedEdits, Unified.
  rewrite SortedNumbers_KeepAll.
  change (abPaths (KeepAll dd)) with (abPaths dd).
  change (edits (KeepAll dd)) with (edits dd).
  change (source (KeepAll dd)) with (source dd).
  pose proof (collect_seqZ (edits dd) []) as Hc. simpl in Hc.
  change (len []) with 0 in Hc. rewrite Hc.
  destruct (abPaths dd) as [ap bp]. split; [done|]. split; [done|].
  by vm_compute SortedNumbers.
Qed.

(** X11: With every kept index in range the index reads of [ModifiedEdits] do
    not panic: it hands the kept edits, in ascending order, to
    [ApplyEdits]; it returns the text and a nil error when that returns,
    and the empty text with the error when that panics. *)
Theorem ModifiedEdits_kept (dd : Diff) :
  keep_valid dd ->
  exists es',
    Forall2 (fun gid e => edits dd !! Z.to_nat gid = Some e)
      (SortedNumbers (keep dd)) es'
    /\ ModifiedEdits ApplyEdits dd
       = match ApplyEdits (source dd) es' with
         | Ret modified => (modified, None)
         | Panic => (EmptyString, Some gotextdiff_error)
         end.
Proof.
  intros Hv. unfold ModifiedEdits.
  destruct (collect_spec _ _ (keep_valid_sorted dd Hv)) as (es' & -> & Hall).
  by exists es'.
Qed.

Lemma init_groups_ascending (es : list TextEdit) :
  Forall (fun g => Sorted Z.le g /\ NoDup g) (init_groups es).
Proof.
  pose proof (init_groups_concat es) as Hc.
  apply Forall_and. split.
  - apply Sorted_sublist_concat. rewrite Hc.
    apply Sorted_StronglySorted; [apply _ | apply Sorted_seqZ].
  - apply NoDup_sublist_concat. rewrite Hc. apply NoDup_seqZ.
Qed.

Lemma init_groups_valid (es : list TextEdit) :
  Forall (Forall (fun gid => 0 <= gid < len es)) (init_groups es).
Proof.
  apply Forall_forall. intros g Hg. apply Forall_forall. intros gid Hgid.
  apply list_elem_of_lookup in Hg as [n Hn].
  pose proof (elem_of_concat_lookup _ _ _ _ Hn Hgid) as Hin.
  rewrite init_groups_concat in Hin. apply elem_of_seqZ in Hin. lia.
Qed.

(** X12: On a Diff with the groups [init] computes from its edits, skipping
    everything, keeping group [i] alone and asking for [UnifiedEdits] gives
    the text of [EditGroup(i)], for every group index in range. *)
Theorem KeepGroup_UnifiedEdits_EditGroup (dd : Diff) (i : Z) :
  groups dd = init_groups (edits dd) ->
  0 <= i < EditGroupsLen dd ->
  exists d',
    KeepGroup (SkipAll dd) i = Ret d'
    /\ UnifiedEdits ToUnified d' = EditGroup ToUnified dd i.
Proof.
  intros Hgroups Hi. unfold EditGroupsLen in Hi.
  destruct (lookup_lt_is_Some_2 (groups dd) (Z.to_nat i)) as [g Hg];
    [unfold len in Hi; lia|].
  assert (Hvalid : groups_valid (SkipAll dd)).
  { unfold groups_valid, Len. simpl. rewrite Hgroups. apply init_groups_valid. }
  destruct (KeepGroup_spec (SkipAll dd) i g Hvalid) as [-> _];
    [lia | done |].
  eexists. split; [reflexivity|].
  unfold UnifiedEdits, EditGroup. simpl.
  change (abPaths (set_keep (SkipAll dd) (∅ ∪ list_to_set g))) with (abPaths dd).
  destruct (abPaths dd) as [ap bp].
  rewrite guard_true by done.
  destruct (slice_get_in_range (groups dd) i Hi) as (g' & -> & Hg').
  assert (g' = g) as -> by congruence. simpl.
  rewrite union_empty_l_L.
  pose proof (init_groups_ascending (edits dd)) as Hasc.
  rewrite <- Hgroups in Hasc. eapply Forall_lookup_1 in Hasc as [Hs Hnd]; [|exact Hg].
  by rewrite SortedNumbers_list_to_set.
Qed.

(** X13: For an index in range, [UnifiedEdit(i)] is what [UnifiedEdits] gives
    when edit [i] alone is kept. *)
Theorem KeepEdit_UnifiedEdits_UnifiedEdit (dd : Diff) (i : Z) :
  0 <= i < Len dd ->
  UnifiedEdits ToUnified (fst (KeepEdit (SkipAll dd) i))
  = UnifiedEdit ToUnified dd i.
Proof.
  intros Hi. rewrite KeepEdit_fst by done.
  unfold UnifiedEdits, UnifiedEdit. simpl.
  change (abPaths (set_keep (SkipAll dd) ({[i]} ∪ ∅))) with (abPaths dd).
  destruct (abPaths dd) as [ap bp].
  rewrite union_empty_r_L. unfold SortedNumbers. rewrite elements_singleton.
  change (merge_sort Z.le [i]) with [i]. simpl.
  by destruct (slice_get (edits dd) i).
Qed.

End OutputProperties.

(** * More of the renderer *)

Section RenderMore.

Variable DiffMain : string -> string -> bool -> list diffmatchpatch.Diff.
Variable EscapeString : string -> string.
Variable r : CRender.

Local Abbreviation RenderLine := (RenderLine DiffMain EscapeString r).
Local Abbreviation processRenderDiffBatch := (processRenderDiffBatch DiffMain EscapeString r).
Local Abbreviation prepare_step := (prepare_step DiffMain EscapeString r).
Local Abbreviation prepare_loop := (prepare_loop DiffMain EscapeString r).
Local Abbreviation prepareRenderDiff := (prepareRenderDiff DiffMain EscapeString r).
Local Abbreviation RenderDiff := (RenderDiff DiffMain EscapeString r).
Local Abbreviation prepared_from := (prepared_from DiffMain EscapeString r).

(** X14: No input makes the scan or [RenderDiff] panic: every index the flush
    writes to is in range.  The scan keeps the number of lines, the two
    header lines and the empty lines, and every other line keeps its first
    byte, as [string(line[0])]. *)
Theorem prepareRenderDiff_returns (original : list string) :
  exists lines,
    prepareRenderDiff original = Ret lines
    /\ length lines = length original
    /\ (forall i o, (i < 2)%nat -> original !! i = Some o -> lines !! i = Some o)
    /\ (forall i, original !! i = Some EmptyString -> lines !! i = Some EmptyString)
    /\ (forall i c rest,
          (2 <= i)%nat -> original !! i = Some (String c rest) ->
          exists t, lines !! i = Some (string_of_byte c +:+ t))
    /\ (forall unified, returns (RenderDiff unified)).
Proof.
  destruct (prepareRenderDiff_spec DiffMain EscapeString r original)
    as (lines & Hrun & Hlen & Hok).
  exists lines. split; [done|]. split; [done|].
  split; [|split; [|split]].
  - intros i o Hi Ho. destruct (Hok i o Ho) as (l & Hl & Hp).
    unfold Render.prepared_from in Hp.
    destruct (i <? 2)%nat eqn:E; [by subst l | lia].
  - intros i Ho. destruct (Hok i _ Ho) as (l & Hl & Hp).
    unfold Render.prepared_from in Hp.
    destruct (i <? 2)%nat; by subst l.
  - intros i c rest Hi Ho. destruct (Hok i _ Ho) as (l & Hl & Hp).
    unfold Render.prepared_from in Hp.
    destruct (i <? 2)%nat eqn:E; [lia|].
    destruct Hp as [->|[[-> [y ->]]|[-> [x ->]]]]; rewrite Hl; by eexists.
  - intros unified.
    destruct (prepareRenderDiff_spec DiffMain EscapeString r (Split unified))
      as (lines' & Hrun' & _).
    eexists. by apply RenderDiff_unfold.
Qed.

(** *** Lines that are never paired *)

Lemma flush_without_additions (lastIdx : Z) (lines : list string)
    (batch : option renderBatch) :
  match batch with None => True | Some b => a b = [] end ->
  processRenderDiffBatch lastIdx lines batch = Ret (lines, None).
Proof.
  destruct batch as [b|]; [|done]. intros Ha. unfold Render.processRenderDiffBatch.
  rewrite Ha. change (len []) with 0. simpl. by destruct (0 <? len (d b)).
Qed.

Lemma prepare_step_plain (lines : list string) (batch : option renderBatch)
    (idx : nat) (line : string) :
  match batch with None => True | Some b => a b = [] end ->
  ((2 <= idx)%nat -> starts_with "+" line = false \/ batch = None) ->
  exists batch',
    prepare_step (lines, batch) (Z.of_nat idx) line
    = Ret (lines ++ [if (idx <? 2)%nat then line else escaped_line EscapeString line], batch')
    /\ match batch' with None => True | Some b => a b = [] end
    /\ (((2 <= idx)%nat -> starts_with "-" line = false) ->
        batch = None -> batch' = None).
Proof.
  intros HQ Hplus. unfold Render.prepare_step.
  destruct (idx <? 2)%nat eqn:E.
  { rewrite (proj2 (Z.ltb_lt _ _)) by lia. exists batch. by repeat split. }
  rewrite (proj2 (Z.ltb_ge _ _)) by lia.
  destruct line as [|c rest].
  { rewrite flush_without_additions by done. by exists None. }
  cbn [starts_with] in *.
  destruct batch as [b|].
  - destruct (Ascii.eqb c "-") eqn:Hm.
    + rewrite HQ. change (0 <? len []) with false. cbn iota.
      eexists. split; [reflexivity|]. by split.
    + destruct Hplus as [Hp|Hp]; [lia | | done]. rewrite Hp.
      rewrite flush_without_additions by done. by exists None.
  - destruct (Ascii.eqb c "-") eqn:Hm.
    + eexists. split; [reflexivity|]. split; [done|].
      intros Hminus _. specialize (Hminus ltac:(lia)). done.
    + by exists None.
Qed.

Lemma plain_lines_snoc (pre : list string) (line : string) :
  plain_lines EscapeString (pre ++ [line])
  = plain_lines EscapeString pre
    ++ [if (length pre <? 2)%nat then line else escaped_line EscapeString line].
Proof.
  unfold plain_lines. rewrite imap_app. simpl.
  by rewrite Nat.add_0_r.
Qed.

Lemma prepare_loop_plain (suffix : list string) : forall pre batch,
  match batch with None => True | Some b => a b = [] end ->
  ((forall i o, (2 <= i)%nat -> (pre ++ suffix) !! i = Some o ->
                starts_with "+" o = false)
   \/ ((forall i o, (2 <= i)%nat -> (pre ++ suffix) !! i = Some o ->
                    starts_with "-" o = false)
       /\ batch = None)) ->
  exists batch',
    prepare_loop (plain_lines EscapeString pre, batch) (len pre) suffix
    = Ret (plain_lines EscapeString (pre ++ suffix), batch')
    /\ match batch' with None => True | Some b => a b = [] end.
Proof.
  induction suffix as [|line suffix IH]; intros pre batch HQ Hcase.
  - exists batch. by rewrite app_nil_r.
  - cbn [Render.prepare_loop].
    assert (Hline : (pre ++ line :: suffix) !! length pre = Some line)
      by (by rewrite list_lookup_middle).
    destruct (prepare_step_plain (plain_lines EscapeString pre) batch (length pre) line HQ)
      as (batch1 & Hstep & HQ1 & Hnone).
    { intros Hi. destruct Hcase as [Hplus|[_ ->]]; [left; eauto | by right]. }
    unfold len in *. rewrite Hstep. cbn [mbind go_bind].
    rewrite <- plain_lines_snoc.
    rewrite (cons_middle line pre suffix), app_assoc in Hcase |- *.
    replace (Z.of_nat (length pre) + 1) with (Z.of_nat (length (pre ++ [line])))
      by (rewrite length_app; simpl; lia).
    apply IH; [done|].
    destruct Hcase as [Hplus|[Hminus ->]]; [by left|]. right. split; [done|].
    apply Hnone; [|done]. intros Hi. eapply Hminus; [exact Hi|].
    rewrite <- app_assoc. exact Hline.
Qed.

(** X15: When no line after the header begins with [-], or none begins with
    [+], nothing is paired: the scan returns the header lines as they are,
    an empty line as it is, and every other line as [string(line[0])]
    followed by the escaped rest, where [string(line[0])] is Go's
    conversion of the first byte to a string (the byte itself below 0x80,
    the two bytes of its UTF-8 encoding from 0x80 on); [RenderLine] is
    never called. *)
Theorem prepareRenderDiff_unpaired (original : list string) :
  (forall i o, (2 <= i)%nat -> original !! i = Some o -> starts_with "-" o = false)
  \/ (forall i o, (2 <= i)%nat -> original !! i = Some o -> starts_with "+" o = false) ->
  prepareRenderDiff original = Ret (plain_lines EscapeString original).
Proof.
  intros Hcase. unfold Render.prepareRenderDiff.
  destruct (prepare_loop_plain original [] None I) as (batch & Hrun & HQ).
  { destruct Hcase as [Hminus|Hplus]; [right | left]; done. }
  change (plain_lines EscapeString []) with (@nil string) in Hrun.
  change (len []) with 0 in Hrun. rewrite Hrun. cbn [mbind go_bind fst snd app].
  by rewrite flush_without_additions.
Qed.

End RenderMore.

(** *** Rendering without text tags *)

Section RenderPlain.

Variable DiffMain : string -> string -> bool -> list diffmatchpatch.Diff.
Variable EscapeString : string -> string.
Variable r : CRender.

Local Abbreviation RenderLine := (RenderLine DiffMain EscapeString r).
Local Abbreviation prepareRenderDiff := (prepareRenderDiff DiffMain EscapeString r).

Lemma string_length_app (x y : string) :
  String.length (x +:+ y) = (String.length x + String.length y)%nat.
Proof.
  induction x as [|c x IH]; [done|].
  change (S (String.length (x +:+ y)) = S (String.length x + String.length y)).
  by rewrite IH.
Qed.

Lemma escape_empty :
  (forall x y, EscapeString (x +:+ y) = EscapeString x +:+ EscapeString y) ->
  EscapeString EmptyString = EmptyString.
Proof.
  intros Hhom. pose proof (Hhom EmptyString EmptyString) as H.
  change (EmptyString +:+ EmptyString) with EmptyString in H.
  apply (f_equal String.length) in H. rewrite string_length_app in H.
  destruct (EscapeString EmptyString); [done | simpl in H; lia].
Qed.

Lemma RenderLine_fold (diffs : list diffmatchpatch.Diff) :
  Text r = mkAddRemTags (mkMarkupTag "" "") (mkMarkupTag "" "") ->
  (forall x y, EscapeString (x +:+ y) = EscapeString x +:+ EscapeString y) ->
  forall ma mb,
    fold_left (RenderLine_step EscapeString r) diffs (ma, mb)
    = (ma +:+ EscapeString (removed_side diffs),
       mb +:+ EscapeString (added_side diffs)).
Proof.
  intros Htags Hhom.
  induction diffs as [|[op t] diffs IH]; intros ma mb.
  - simpl. by rewrite escape_empty, !string_app_empty_r.
  - cbn [fold_left]. unfold RenderLine_step at 2. rewrite Htags.
    cbn [diffmatchpatch.Type_ diffmatchpatch.Text Open Close Add Rem].
    destruct op; rewrite IH; cbn [removed_side added_side diffmatchpatch.Type_
                                   diffmatchpatch.Text];
      rewrite ?Hhom, ?string_app_empty_r, ?string_app_assoc; reflexivity.
Qed.

(** X16: With empty Text tags and an escape that goes through concatenation,
    [RenderLine] gives the escaped text its segments stand for on each
    side: the deletions and the equal parts for the first result, the
    insertions and the equal parts for the second. *)
Theorem RenderLine_sides (x y : string) :
  Text r = mkAddRemTags (mkMarkupTag "" "") (mkMarkupTag "" "") ->
  (forall s t, EscapeString (s +:+ t) = EscapeString s +:+ EscapeString t) ->
  RenderLine x y
  = (EscapeString (removed_side (DiffMain x y false)),
     EscapeString (added_side (DiffMain x y false))).
Proof.
  intros Htags Hhom. unfold Render.RenderLine.
  by rewrite RenderLine_fold.
Qed.

(** When the segments of [DiffMain] give back its two arguments whatever
    they are, the markup of a paired line is the escaped line. *)
Lemma prepareRenderDiff_plain_of_sides (original : list string) :
  Text r = mkAddRemTags (mkMarkupTag "" "") (mkMarkupTag "" "") ->
  (forall s t, EscapeString (s +:+ t) = EscapeString s +:+ EscapeString t) ->
  (forall x y, removed_side (DiffMain x y false) = x
               /\ added_side (DiffMain x y false) = y) ->
  prepareRenderDiff original = Ret (plain_lines EscapeString original).
Proof.
  intros Htags Hhom Hdiff.
  destruct (prepareRenderDiff_spec DiffMain EscapeString r original)
    as (lines & -> & Hlen & Hok).
  f_equal. apply list_eq. intros i. unfold plain_lines.
  rewrite list_lookup_imap.
  destruct (original !! i) as [o|] eqn:Ho; simpl.
  - destruct (Hok i o Ho) as (l & -> & Hp). f_equal.
    unfold Render.prepared_from in Hp.
    destruct (i <? 2)%nat; [done|].
    destruct o as [|c rest]; [done|]. simpl.
    destruct Hp as [->|[[-> [y ->]]|[-> [x ->]]]]; [done|..];
      unfold Render.RenderLine; rewrite RenderLine_fold by done;
      cbn [fst snd]; by rewrite ?(proj1 (Hdiff _ _)), ?(proj2 (Hdiff _ _)).
  - apply lookup_ge_None. apply lookup_ge_None in Ho. lia.
Qed.

End RenderPlain.

Lemma whole_DiffMain_sides (x y : string) :
  removed_side (whole_DiffMain x y false) = x
  /\ added_side (whole_DiffMain x y false) = y.
Proof. split; apply string_app_empty_r. Qed.

(** *** The scan calls [RenderLine] on texts of the input only *)

Section RenderAgree.

Variable DiffMain1 DiffMain2 : string -> string -> bool -> list diffmatchpatch.Diff.
Variable EscapeString : string -> string.
Variable r : CRender.

Lemma slice_get_elem_of {A : Type} (s : list A) (i : Z) (x : A) :
  slice_get s i = Ret x -> x ∈ s.
Proof.
  unfold slice_get. destruct (bool_decide _); [|done].
  destruct (s !! Z.to_nat i) as [x'|] eqn:E; [|done].
  intros [= <-]. by eapply list_elem_of_lookup_2.
Qed.

Lemma pair_loop_agree (lastIdx numDel numAdd : Z) (b : renderBatch) :
  (forall x y, x ∈ d b -> y ∈ a b ->
     RenderLine DiffMain1 EscapeString r x y
     = RenderLine DiffMain2 EscapeString r x y) ->
  forall ds idx lines,
    pair_loop DiffMain1 EscapeString r lastIdx numDel numAdd b idx ds lines
    = pair_loop DiffMain2 EscapeString r lastIdx numDel numAdd b idx ds lines.
Proof.
  intros Hag. induction ds as [|x0 ds IH]; intros idx lines; [done|].
  cbn [Render.pair_loop].
  destruct (idx <? numAdd); [|simpl; apply IH].
  destruct (slice_get (d b) idx) as [x|] eqn:Hx; [|done].
  destruct (slice_get (a b) idx) as [y|] eqn:Hy; [|done].
  simpl.
  rewrite (Hag x y (slice_get_elem_of _ _ _ Hx) (slice_get_elem_of _ _ _ Hy)).
  destruct (RenderLine DiffMain2 EscapeString r x y) as [ma mb].
  destruct (slice_set lines _ _) as [l1|]; [|done]. simpl.
  destruct (slice_set l1 _ _) as [l2|]; [|done]. simpl.
  apply IH.
Qed.

Lemma processRenderDiffBatch_agree (pre : list string) (lastIdx : Z)
    (lines : list string) (batch : option renderBatch) :
  (forall x y, String "-" x ∈ pre -> String "+" y ∈ pre ->
     RenderLine DiffMain1 EscapeString r x y
     = RenderLine DiffMain2 EscapeString r x y) ->
  batch_from pre batch ->
  processRenderDiffBatch DiffMain1 EscapeString r lastIdx lines batch
  = processRenderDiffBatch DiffMain2 EscapeString r lastIdx lines batch.
Proof.
  intros Hag Hb. destruct batch as [b|]; [|done].
  destruct Hb as [Hd Ha]. unfold Render.processRenderDiffBatch.
  destruct (0 <? len (d b)); [|done].
  destruct (0 <? len (a b)); [|done].
  rewrite pair_loop_agree; [done|].
  intros x y Hx Hy. apply Hag; auto.
Qed.

Lemma processRenderDiffBatch_closes (DiffMain : string -> string -> bool ->
      list diffmatchpatch.Diff) (lastIdx : Z) (lines : list string)
    (batch : option renderBatch) (st : list string * option renderBatch) :
  processRenderDiffBatch DiffMain EscapeString r lastIdx lines batch = Ret st ->
  snd st = None.
Proof.
  unfold Render.processRenderDiffBatch. destruct batch as [b|].
  - destruct (if 0 <? len (d b) then _ else _) as [l|]; [|done].
    simpl. by intros [= <-].
  - by intros [= <-].
Qed.

Lemma batch_from_snoc (pre : list string) (line : string)
    (batch : option renderBatch) :
  batch_from pre batch -> batch_from (pre ++ [line]) batch.
Proof.
  destruct batch as [b|]; [|done]. intros [Hd Ha].
  split; intros z Hz; apply elem_of_app; left; auto.
Qed.

Lemma batch_from_rem (pre : list string) (rest : string) (b : renderBatch) :
  batch_from pre (Some b) ->
  batch_from (pre ++ [String "-" rest]) (Some (rem b rest)).
Proof.
  intros [Hd Ha]. split; simpl; intros z Hz.
  - apply elem_of_app in Hz as [Hz|Hz]; apply elem_of_app.
    + left. auto.
    + right. apply list_elem_of_singleton in Hz as ->. apply list_elem_of_singleton.
      reflexivity.
  - apply elem_of_app. left. auto.
Qed.

Lemma batch_from_add (pre : list string) (rest : string) (b : renderBatch) :
  batch_from pre (Some b) ->
  batch_from (pre ++ [String "+" rest]) (Some (add b rest)).
Proof.
  intros [Hd Ha]. split; simpl; intros z Hz.
  - apply elem_of_app. left. auto.
  - apply elem_of_app in Hz as [Hz|Hz]; apply elem_of_app.
    + left. auto.
    + right. apply list_elem_of_singleton in Hz as ->. apply list_elem_of_singleton.
      reflexivity.
Qed.

Lemma batch_from_empty (pre : list string) :
  batch_from pre (Some (mkBatch [] [])).
Proof. split; simpl; intros z Hz; by apply elem_of_nil in Hz. Qed.

Section Scan.

Variable original : list string.

Hypothesis agree :
  forall x y, String "-" x ∈ original -> String "+" y ∈ original ->
    RenderLine DiffMain1 EscapeString r x y
    = RenderLine DiffMain2 EscapeString r x y.

Lemma agree_on (pre : list string) :
  (forall l, l ∈ pre -> l ∈ original) ->
  forall x y, String "-" x ∈ pre -> String "+" y ∈ pre ->
    RenderLine DiffMain1 EscapeString r x y
    = RenderLine DiffMain2 EscapeString r x y.
Proof. intros Hsub x y Hx Hy. apply agree; auto. Qed.

Lemma prepare_step_agree (pre : list string)
    (st : list string * option renderBatch) (idx : Z) (line : string) :
  (forall l, l ∈ pre -> l ∈ original) ->
  batch_from pre (snd st) ->
  prepare_step DiffMain1 EscapeString r st idx line
  = prepare_step DiffMain2 EscapeString r st idx line
  /\ forall st',
       prepare_step DiffMain2 EscapeString r st idx line = Ret st' ->
       batch_from (pre ++ [line]) (snd st').
Proof.
  intros Hsub Hb. destruct st as [lines batch]. simpl in Hb.
  pose proof (agree_on pre Hsub) as Hag.
  unfold Render.prepare_step.
  destruct (idx <? 2).
  { split; [done|]. intros st' [= <-]. by apply batch_from_snoc. }
  destruct line as [|c rest].
  { split; [by eapply processRenderDiffBatch_agree|].
    intros st' Hst. by rewrite (processRenderDiffBatch_closes _ _ _ _ _ Hst). }
  destruct batch as [b|].
  - destruct (Ascii.eqb c "-") eqn:Hm.
    + apply Ascii.eqb_eq in Hm as ->.
      destruct (0 <? len (a b)).
      * rewrite (processRenderDiffBatch_agree pre) by done.
        split; [done|]. intros st'.
        destruct (processRenderDiffBatch DiffMain2 _ _ _ _ _) as [st1|]; [|done].
        simpl. intros [= <-]. simpl.
        apply (batch_from_rem pre rest (mkBatch [] [])), batch_from_empty.
      * split; [done|]. intros st' [= <-]. simpl. by apply batch_from_rem.
    + destruct (Ascii.eqb c "+") eqn:Hp.
      * apply Ascii.eqb_eq in Hp as ->.
        split; [done|]. intros st' [= <-]. simpl. by apply batch_from_add.
      * split; [by eapply processRenderDiffBatch_agree|].
        intros st' Hst. by rewrite (processRenderDiffBatch_closes _ _ _ _ _ Hst).
  - destruct (Ascii.eqb c "-") eqn:Hm.
    + apply Ascii.eqb_eq in Hm as ->.
      split; [done|]. intros st' [= <-]. simpl.
      apply (batch_from_rem pre rest (mkBatch [] [])), batch_from_empty.
    + split; [done|]. by intros st' [= <-].
Qed.

Lemma prepare_loop_agree (suffix : list string) :
  forall (pre : list string) (st : list string * option renderBatch) (idx : Z),
    (forall l, l ∈ pre ++ suffix -> l ∈ original) ->
    batch_from pre (snd st) ->
    prepare_loop DiffMain1 EscapeString r st idx suffix
    = prepare_loop DiffMain2 EscapeString r st idx suffix
    /\ forall st',
         prepare_loop DiffMain2 EscapeString r st idx suffix = Ret st' ->
         batch_from (pre ++ suffix) (snd st').
Proof.
  induction suffix as [|line suffix IH]; intros pre st idx Hsub Hb.
  - split; [done|]. intros st' [= <-]. by rewrite app_nil_r.
  - cbn [Render.prepare_loop].
    destruct (prepare_step_agree pre st idx line) as [-> Hnext]; [|done|].
    { intros l Hl. apply Hsub, elem_of_app. by left. }
    destruct (prepare_step DiffMain2 EscapeString r st idx line)
      as [st1|]; [|done].
    simpl. rewrite (cons_middle line pre suffix), app_assoc in Hsub |- *.
    apply IH; [done|]. by apply Hnext.
Qed.

Lemma prepareRenderDiff_agree :
  prepareRenderDiff DiffMain1 EscapeString r original
  = prepareRenderDiff DiffMain2 EscapeString r original.
Proof.
  unfold Render.prepareRenderDiff.
  destruct (prepare_loop_agree original [] ([], None) 0) as [-> Hb]; [done..|].
  destruct (prepare_loop DiffMain2 EscapeString r ([], None) 0 original)
    as [st|]; [|done].
  simpl. by rewrite (processRenderDiffBatch_agree original _ _ _ agree (Hb _ eq_refl)).
Qed.

End Scan.
End RenderAgree.

Section RenderPlainInput.

Variable DiffMain : string -> string -> bool -> list diffmatchpatch.Diff.
Variable EscapeString : string -> string.
Variable r : CRender.

(** X17: With empty Text tags, an escape that goes through concatenation and
    a [DiffMain] whose segments give back the two texts of every removal
    and addition of the input, pairing shows nowhere: the scan returns
    the header lines as they are and every other line, paired or not, as
    an unpaired line is returned: empty when it is empty, and otherwise
    [string(line[0])] followed by the escaped rest, where
    [string(line[0])] is Go's conversion of the first byte to a string
    (the byte itself below 0x80, the two bytes of its UTF-8 encoding from
    0x80 on). *)
Theorem prepareRenderDiff_without_text_tags (original : list string) :
  Text r = mkAddRemTags (mkMarkupTag "" "") (mkMarkupTag "" "") ->
  (forall s t, EscapeString (s +:+ t) = EscapeString s +:+ EscapeString t) ->
  (forall x y, String "-" x ∈ original -> String "+" y ∈ original ->
     removed_side (DiffMain x y false) = x
     /\ added_side (DiffMain x y false) = y) ->
  prepareRenderDiff DiffMain EscapeString r original
  = Ret (plain_lines EscapeString original).
Proof.
  intros Htags Hhom Hdiff.
  rewrite (prepareRenderDiff_agree DiffMain whole_DiffMain EscapeString r original).
  - by apply prepareRenderDiff_plain_of_sides, whole_DiffMain_sides.
  - intros x y Hx Hy. unfold Render.RenderLine.
    rewrite !RenderLine_fold by done.
    destruct (Hdiff x y Hx Hy) as [-> ->].
    by destruct (whole_DiffMain_sides x y) as [-> ->].
Qed.

End RenderPlainInput.

(** *** The builder: shared and copied renderers *)

(** X18: [Clone] copies: the clone is a new pointer to the same tags, and a
    setter called through either pointer leaves what the other points to
    as it was.  [Make] does not copy: it returns its receiver, so a setter
    called on the builder afterwards changes the made renderer.  (Every
    setter is [through] with the change of its own tag pair.) *)
Theorem Clone_copies_Make_shares (h : gmap nat CRender) (r : nat)
    (cfg : CRender) (f : CRender -> CRender) :
  h !! r = Some cfg ->
  (exists h1 c,
     Clone h r = Ret (h1, c) /\ c <> r
     /\ h1 !! c = Some cfg /\ h1 !! r = Some cfg
     /\ (exists h2, through h1 c f = Ret (h2, c)
                    /\ h2 !! r = Some cfg /\ h2 !! c = Some (f cfg))
     /\ (exists h2, through h1 r f = Ret (h2, r)
                    /\ h2 !! c = Some cfg /\ h2 !! r = Some (f cfg)))
  /\ (exists h', through h r f = Ret (h', r) /\ h' !! Make h r = Some (f cfg)).
Proof.
  intros Hr. split.
  - unfold Clone. rewrite Hr.
    set (c := fresh (dom h)).
    assert (Hc : c <> r).
    { intros Heq. apply (is_fresh (dom h)). apply elem_of_dom. exists cfg.
      fold c. by rewrite Heq. }
    exists (<[c:=cfg]> h), c. split; [done|]. split; [done|].
    split; [apply lookup_insert_eq|].
    split; [by rewrite lookup_insert_ne|].
    unfold through. rewrite lookup_insert_eq, lookup_insert_ne, Hr by done.
    split; eexists; (split; [reflexivity|]).
    + rewrite lookup_insert_eq, lookup_insert_ne, lookup_insert_ne by done. done.
    + rewrite lookup_insert_eq, lookup_insert_ne, lookup_insert_eq by done. done.
  - unfold through, Make. rewrite Hr. eexists. split; [reflexivity|].
    apply lookup_insert_eq.
Qed.

(** * The further theorems at concrete inputs *)

Lemma html_EscapeString_app (s t : string) :
  html_EscapeString (s +:+ t) = html_EscapeString s +:+ html_EscapeString t.
Proof.
  induction s as [|c s IH]; [done|].
  change (escape_byte c +:+ html_EscapeString (s +:+ t)
          = (escape_byte c +:+ html_EscapeString s) +:+ html_EscapeString t).
  by rewrite IH, string_app_assoc.
Qed.

Lemma fresh_diff_keep_valid : keep_valid fresh_diff.
Proof. intros i Hi. by apply elem_of_empty in Hi. Defined.

Lemma kept_diff_keep_valid : keep_valid kept_diff.
Proof. apply (KeepEdits_keep_valid [0] fresh_diff fresh_diff_keep_valid). Defined.

Lemma KeepEdit_SkipEdit_inverse_witness :
  (0 ∉ keep fresh_diff)
  /\ fst (SkipEdit (fst (KeepEdit fresh_diff 0)) 0) = fresh_diff.
Proof.
  assert (H : 0 ∉ keep fresh_diff) by apply not_elem_of_empty.
  split; [exact H|].
  exact (proj1 (KeepEdit_SkipEdit_inverse fresh_diff 0) H).
Defined.


Lemma guarded_operations_safe_witness :
  (9 < 0 \/ Len fresh_diff <= 9)
  /\ SetEdit fresh_diff 9 "t" = Ret (fresh_diff, false).
Proof.
  assert (H : 9 < 0 \/ Len fresh_diff <= 9) by (right; vm_compute; congruence).
  split; [exact H|].
  exact (proj2 (proj2 (proj2 (proj1 (proj2
    (guarded_operations_safe three_edits const_unified fresh_diff 9 "t")) H)))).
Defined.

Lemma KeepGroup_SkipGroup_keep_witness :
  (groups_valid fresh_diff /\ 0 <= 0
   /\ groups fresh_diff !! Z.to_nat 0 = Some [0; 1])
  /\ exists dk, KeepGroup fresh_diff 0 = Ret dk /\ 1 ∈ keep dk.
Proof.
  assert (H1 : groups_valid fresh_diff) by apply (New_groups_valid three_edits).
  assert (H2 : 0 <= 0) by lia.
  assert (H3 : groups fresh_diff !! Z.to_nat 0 = Some [0; 1]) by reflexivity.
  split; [exact (conj H1 (conj H2 H3))|].
  destruct (KeepGroup_SkipGroup_keep fresh_diff 0 [0; 1] H1 H2 H3)
    as (dk & ds & Hk & _ & _ & _ & Hall & _).
  exists dk. split; [exact Hk|].
  apply Hall. apply elem_of_cons. right. apply elem_of_cons. by left.
Defined.

Lemma three_edits_lines (x : TextEdit) :
  x ∈ edits fresh_diff -> end_line x <> -1.
Proof.
  intros Hx. apply elem_of_cons in Hx as [->|Hx]; [done|].
  apply elem_of_cons in Hx as [->|Hx]; [done|].
  apply elem_of_cons in Hx as [->|Hx]; [done|].
  by apply elem_of_nil in Hx.
Defined.

Lemma New_groups_adjacent_witness :
  (edits fresh_diff !! 0%nat = Some (edit_at 5 "x")
   /\ edits fresh_diff !! 1%nat = Some (edit_at 6 "y"))
  /\ (same_group (groups fresh_diff) 0 1 <-> adjacent_lines 5 6).
Proof.
  split; [by split|].
  exact (New_groups_adjacent three_edits "f" "s" "c" 0 (edit_at 5 "x")
           (edit_at 6 "y") three_edits_lines eq_refl eq_refl).
Defined.

Lemma New_group_count_witness :
  0 <= EditGroupsLen fresh_diff <= Len fresh_diff.
Proof. exact (proj1 (New_group_count three_edits "f" "s" "c")). Defined.

Lemma SetEdit_keeps_grouping_witness :
  exists d' ok,
    SetEdit fresh_diff 1 "new" = Ret (d', ok)
    /\ init_groups (edits d') = init_groups (edits fresh_diff).
Proof.
  destruct (SetEdit fresh_diff 1 "new") as [[d' ok]|] eqn:H.
  - exists d', ok. split; [reflexivity|].
    exact (proj1 (SetEdit_keeps_grouping fresh_diff 1 "new" d' ok H)).
  - exfalso. vm_compute in H. discriminate H.
Defined.

Lemma UnifiedEdits_kept_witness :
  keep_valid kept_diff
  /\ exists es',
       UnifiedEdits const_unified kept_diff
       = Ret (const_unified (fst (abPaths kept_diff)) (snd (abPaths kept_diff))
                (source kept_diff) es').
Proof.
  split; [exact kept_diff_keep_valid|].
  destruct (UnifiedEdits_kept const_unified kept_diff kept_diff_keep_valid)
    as (es' & H & _).
  exists es'. exact H.
Defined.

Lemma ModifiedEdits_kept_witness :
  keep_valid kept_diff
  /\ exists es',
       ModifiedEdits always_panics kept_diff
       = match always_panics (source kept_diff) es' with
         | Ret modified => (modified, None)
         | Panic => (EmptyString, Some gotextdiff_error)
         end.
Proof.
  split; [exact kept_diff_keep_valid|].
  destruct (ModifiedEdits_kept always_panics kept_diff kept_diff_keep_valid)
    as (es' & _ & H).
  exists es'. exact H.
Defined.

Lemma KeepGroup_UnifiedEdits_EditGroup_witness :
  (groups fresh_diff = init_groups (edits fresh_diff)
   /\ 0 <= 1 < EditGroupsLen fresh_diff)
  /\ exists d',
       KeepGroup (SkipAll fresh_diff) 1 = Ret d'
       /\ UnifiedEdits const_unified d' = EditGroup const_unified fresh_diff 1.
Proof.
  assert (H1 : groups fresh_diff = init_groups (edits fresh_diff)) by reflexivity.
  assert (H2 : 0 <= 1 < EditGroupsLen fresh_diff)
    by (vm_compute; split; congruence).
  split; [exact (conj H1 H2)|].
  exact (KeepGroup_UnifiedEdits_EditGroup const_unified fresh_diff 1 H1 H2).
Defined.

Lemma KeepEdit_UnifiedEdits_UnifiedEdit_witness :
  0 <= 2 < Len fresh_diff
  /\ UnifiedEdits const_unified (fst (KeepEdit (SkipAll fresh_diff) 2))
     = UnifiedEdit const_unified fresh_diff 2.
Proof.
  assert (H : 0 <= 2 < Len fresh_diff) by (vm_compute; split; congruence).
  split; [exact H|].
  exact (KeepEdit_UnifiedEdits_UnifiedEdit const_unified fresh_diff 2 H).
Defined.

Lemma added_only_no_removal (i : nat) (o : string) :
  (2 <= i)%nat -> added_only !! i = Some o -> starts_with "-" o = false.
Proof.
  intros Hi Ho.
  do 6 (destruct i as [|i]; [try lia; by injection Ho as <-|]).
  done.
Defined.

Lemma prepareRenderDiff_unpaired_witness :
  prepareRenderDiff affix_DiffMain html_EscapeString html_tags added_only
  = Ret ["--- a/f"; "+++ b/f"; "@@ -1,0 +1,2 @@"; "+x&lt;y"; "+z"; ""]%string.
Proof.
  exact (prepareRenderDiff_unpaired affix_DiffMain html_EscapeString html_tags
           added_only (or_introl added_only_no_removal)).
Defined.

Lemma RenderLine_sides_witness :
  Text line_tags_only = mkAddRemTags (mkMarkupTag "" "") (mkMarkupTag "" "")
  /\ RenderLine affix_DiffMain html_EscapeString line_tags_only "a<b" "a<c"
     = ("a&lt;b"%string, "a&lt;c"%string).
Proof.
  split; [reflexivity|].
  exact (RenderLine_sides affix_DiffMain html_EscapeString line_tags_only
           "a<b" "a<c" eq_refl html_EscapeString_app).
Defined.

Lemma affix_DiffMain_sides_run_raw (x y : string) :
  String "-" x ∈ run_raw -> String "+" y ∈ run_raw ->
  removed_side (affix_DiffMain x y false) = x
  /\ added_side (affix_DiffMain x y false) = y.
Proof.
  intros Hx Hy. apply list_elem_of_In in Hx, Hy. simpl in Hx, Hy.
  repeat (destruct Hx as [Hx|Hx]; [try discriminate Hx|]);
    try (exfalso; exact Hx);
    injection Hx as <-;
    repeat (destruct Hy as [Hy|Hy]; [try discriminate Hy|]);
    try (exfalso; exact Hy);
    injection Hy as <-;
    split; reflexivity.
Qed.

Lemma prepareRenderDiff_without_text_tags_witness :
  Text line_tags_only = mkAddRemTags (mkMarkupTag "" "") (mkMarkupTag "" "")
  /\ prepareRenderDiff affix_DiffMain html_EscapeString line_tags_only run_raw
     = Ret run_lines.
Proof.
  split; [reflexivity|].
  exact (prepareRenderDiff_without_text_tags affix_DiffMain html_EscapeString
           line_tags_only run_raw eq_refl html_EscapeString_app
           affix_DiffMain_sides_run_raw).
Defined.

Lemma Clone_copies_Make_shares_witness :
  fst one_renderer !! snd one_renderer = Some NewRenderer
  /\ exists h1 c,
       Clone (fst one_renderer) (snd one_renderer) = Ret (h1, c)
       /\ c <> snd one_renderer.
Proof.
  assert (H : fst one_renderer !! snd one_renderer = Some NewRenderer)
    by apply lookup_insert_eq.
  split; [exact H|].
  destruct (proj1 (Clone_copies_Make_shares (fst one_renderer) (snd one_renderer)
                     NewRenderer (with_File "<f>" "</f>") H))
    as (h1 & c & Hc & Hne & _).
  exists h1, c. split; [exact Hc | exact Hne].
Defined.
